(** * A shallow embedding of the votechain node and its ballot library

    The development follows the Rust sources module by module:
    - [VoteLib]   : src/lib/src/lib.rs (ballots, signed envelopes, the
                    raw Paillier operations the ballots use);
    - [Votechain] : src/node/src/votechain/{block,chain,errors}.rs;
    - [Delegations] : src/node/src/trustee/delegations.rs;
    - [Resolve]   : src/node/src/trustee/resolve.rs;
    - [ChainSync] : src/node/src/protocols/chain_sync/protocol.rs;
    - [Census]    : src/node/src/census.rs.

    Machine integers: the [u32] block indices and the [u64] power
    accumulator are modelled as [N]; the arithmetic the code performs on
    them never comes near the type bound on a chain or census of any
    realistic size, and overflow is not modelled. *)

From stdpp Require Import base gmap sets list strings.
From Stdlib Require Import ZArith Lia.

Open Scope Z_scope.

(** Verifying keys are compared and hashed through their encoding; the
    encoding is modelled as an integer. *)
Abbreviation VerifyingKey := Z (only parsing).

(* ------------------------------------------------------------------ *)
(** ** src/lib/src/lib.rs *)
(* ------------------------------------------------------------------ *)

Module VoteLib.

(** Raw Paillier keys as the [paillier] crate stores them. *)
Record EncryptionKey := mkEncryptionKey { ek_n : Z; ek_nn : Z }.
Record DecryptionKey := mkDecryptionKey { dk_p : Z; dk_q : Z }.

Fixpoint pow_mod_pos (b : Z) (e : positive) (m : Z) : Z :=
  match e with
  | xH => b mod m
  | xO e' => let h := pow_mod_pos b e' m in (h * h) mod m
  | xI e' => let h := pow_mod_pos b e' m in (h * h * b) mod m
  end.

(** [BigInt::mod_pow] *)
Definition mod_pow (b e m : Z) : Z :=
  match e with
  | Zpos p => pow_mod_pos b p m
  | _ => 1 mod m
  end.

(** extended Euclid: [(g, x, y)] with [a * x + b * y = g] *)
Fixpoint egcd (fuel : nat) (a b : Z) : Z * Z * Z :=
  match fuel with
  | O => (a, 1, 0)
  | S f =>
      if b =? 0 then (a, 1, 0)
      else let '(g, x, y) := egcd f b (a mod b) in (g, y, x - (a / b) * y)
  end.

Definition mod_inv (a m : Z) : Z :=
  let '(_, x, _) := egcd (Z.to_nat m) a m in x mod m.

(** [Paillier::encrypt_with_chosen_randomness]: [(1 + m n) r^n mod n^2]. *)
Definition encrypt_with_chosen_randomness (ek : EncryptionKey) (m r : Z) : Z :=
  ((1 + m * ek_n ek) mod ek_nn ek) * mod_pow r (ek_n ek) (ek_nn ek) mod ek_nn ek.

(** [Paillier::mul] of a ciphertext by a plaintext scalar. *)
Definition paillier_mul (ek : EncryptionKey) (c m : Z) : Z := mod_pow c m (ek_nn ek).

(** [Paillier::add] of two ciphertexts. *)
Definition paillier_add (ek : EncryptionKey) (c1 c2 : Z) : Z := c1 * c2 mod ek_nn ek.

(** [Paillier::decrypt].  The crate decrypts through the CRT on [p]
    and [q]; this is the textbook value that computation equals:
    [L(c^lambda mod n^2) * lambda^-1 mod n] for the generator [n + 1]. *)
Definition paillier_decrypt (dk : DecryptionKey) (c : Z) : Z :=
  let n := dk_p dk * dk_q dk in
  let lam := Z.lcm (dk_p dk - 1) (dk_q dk - 1) in
  let u := mod_pow c lam (n * n) in
  ((u - 1) / n) * mod_inv lam n mod n.

(** [RangeProofNi] of the [zk_paillier] crate; no operation of this
    repository looks inside it. *)
Record RangeProofNi := mkRangeProofNi {
  rp_ek_n : Z; rp_range : Z; rp_ciphertext : Z; rp_data : list Z }.

(** [struct Ballot]; [OffsetDateTime] as a UTC instant in nanoseconds. *)
Record Ballot := mkBallot {
  timestamp : Z;
  issue_id : string;
  vote_for : Z;
  vote_against : Z;
  proof_for : RangeProofNi;
  proof_against : RangeProofNi }.

(** [Ballot::validate_proofs] *)
Definition validate_proofs (b : Ballot) : bool :=
  (* let _ = self.proof_for.verify_self(); (commented out in the source) *)
  true.

(** [Ballot::weight]: both ciphertexts multiplied by the plaintext weight. *)
Definition weight (ek : EncryptionKey) (w : N) (b : Ballot) : Ballot :=
  {| timestamp := timestamp b; issue_id := issue_id b;
     vote_for := paillier_mul ek (vote_for b) (Z.of_N w);
     vote_against := paillier_mul ek (vote_against b) (Z.of_N w);
     proof_for := proof_for b; proof_against := proof_against b |}.

(** [Ballot::sum] *)
Definition sum (ek : EncryptionKey) (b : Ballot) (agg_for agg_against : Z) : Z * Z :=
  (paillier_add ek agg_for (vote_for b), paillier_add ek agg_against (vote_against b)).

(** [struct Signed<T>] *)
Record Signed (T : Type) := mkSigned {
  signature : list Z;
  signer : VerifyingKey;
  data : T }.
Arguments mkSigned {T} _ _ _.
Arguments signature {T} _.
Arguments signer {T} _.
Arguments data {T} _.

End VoteLib.
Import VoteLib.

(* ------------------------------------------------------------------ *)
(** ** src/node/src/votechain/{errors,block,chain}.rs *)
(* ------------------------------------------------------------------ *)

Module Votechain.

(** A blake3 digest, a 32-byte value, as an integer. *)
Abbreviation Hash := Z (only parsing).

(** The storage operations of the heed (LMDB) environment; each of them
    may fail with a [heed::Error]. *)
Inductive StorageOp :=
| OpReadTxn | OpWriteTxn | OpGet (i : N) | OpPut (i : N) | OpDelete (i : N)
| OpCommit.

(** [enum Error] *)
Inductive Error :=
| Heed (op : StorageOp)
| Io
| BlockNotFound (i : N)
| InvalidNewBlock.

(** What a call does: returns [Ok], returns [Err], or panics. *)
Inductive outcome (A : Type) :=
| Ok (a : A)
| Err (e : Error)
| Panic.
Arguments Ok {A} _.
Arguments Err {A} _.
Arguments Panic {A}.

(** The parts of the environment the code does not define: the blake3
    compression of a byte string, bincode's encoding of a signed ballot,
    and which storage operations fail. *)
Record Env := mkEnv {
  digest : list Z -> Hash;
  encode_signed : Signed Ballot -> list Z;
  fails : StorageOp -> bool }.

(** [enum BlockData] *)
Inductive BlockData :=
| Genesis (s : string)
| Ballots (bs : list (Signed Ballot))
| Seal (s : string).

(** [struct Block]; the fields [timestamp], [signature] and [data] are
    named [block_timestamp], [block_signature] and [block_data] here to
    keep them apart from the ballot's and the envelope's fields. *)
Record Block := mkBlock {
  block_timestamp : Z;
  previous_hash : Hash;
  signatory : VerifyingKey;
  block_signature : list Z;
  block_data : BlockData;
  nonce : list Z }.

(** big-endian encoding of [z] on [n] bytes ([to_be_bytes], [as_bytes]) *)
Definition be_bytes (n : nat) (z : Z) : list Z :=
  map (fun k => Z.land (Z.shiftr z (8 * Z.of_nat (n - 1 - k))) 255) (seq 0 n).

Section BlockOps.
Context (E : Env).

(** [Block::hash]: timestamp, previous hash and, for a ballots block,
    the encoded ballots; signatory, signature and nonce are not hashed. *)
Definition hash (b : Block) : Hash :=
  digest E (be_bytes 16 (block_timestamp b) ++ be_bytes 32 (previous_hash b) ++
            match block_data b with
            | Ballots bs => concat (map (encode_signed E) bs)
            | _ => []
            end).

(** [Block::is_valid] *)
Definition is_valid (self prev : Block) : bool :=
  bool_decide (previous_hash self = hash prev).

(** [Block::get_ballots] *)
Definition get_ballots (b : Block) : option (list (Signed Ballot)) :=
  match block_data b with
  | Ballots bs => Some bs
  | _ => None
  end.

(** the [windows(2)] loop of [is_valid_chain] *)
Fixpoint windows_linked (bs : list Block) : bool :=
  match bs with
  | b1 :: ((b2 :: _) as rest) =>
      bool_decide (hash b1 = previous_hash b2) && windows_linked rest
  | _ => true
  end.

(** [is_valid_chain] *)
Definition is_valid_chain (bs : list Block) : bool :=
  match bs with
  | [] | [_] => true
  | _ => windows_linked bs
  end.
(** [Block::new]: the clock reading [timestamp] (milliseconds since the
    epoch), the verifying key of [sk] and the result [(nonce, signature)]
    of the randomised [proof_of_work] are inputs; it never fails. *)
Definition block_new (timestamp : Z) (signer_key : VerifyingKey) (pow : list Z * list Z)
    (prev : Block) (data : list (Signed Ballot)) : outcome Block :=
  Ok {| block_timestamp := timestamp; previous_hash := hash prev; signatory := signer_key;
        block_signature := pow.2; block_data := Ballots data; nonce := pow.1 |}.
End BlockOps.

(** [Block::genesis]: timestamp 0, previous hash 0, empty genesis data;
    the signatory (read from a key file), the signature and the nonce
    (found by the randomised proof of work) are inputs here. *)
Definition genesis (signatory : VerifyingKey) (sig nonce : list Z) : Block :=
  {| block_timestamp := 0; previous_hash := 0; signatory := signatory;
     block_signature := sig; block_data := Genesis ""; nonce := nonce |}.

(** [struct Blockchain]: the persistent [chain_db], the in-memory
    [hash_indexes], [metadata.height] and the [ballot_pool].  The
    configuration, the environment handle and the signing key are not
    needed by the operations modelled here. *)
Record Blockchain := mkBlockchain {
  chain_db : gmap N Block;
  hash_indexes : gmap Z N;
  height : N;
  ballot_pool : list (Signed Ballot) }.

Section ChainOps.
Context (E : Env).

(** [Blockchain::new] on an empty store: genesis written at index 1. *)
Definition new_chain (g : Block) : outcome Blockchain :=
  if fails E OpReadTxn then Err (Heed OpReadTxn)
  else if fails E OpWriteTxn then Err (Heed OpWriteTxn)
  else if fails E (OpPut 1) then Err (Heed (OpPut 1))
  else if fails E OpCommit then Err (Heed OpCommit)
  else Ok {| chain_db := {[1%N := g]}; hash_indexes := {[hash E g := 1%N]};
             height := 1; ballot_pool := [] |}.

(** [Blockchain::get_block] (its own read transaction) *)
Definition get_block (st : Blockchain) (i : N) : outcome Block :=
  if fails E OpReadTxn then Err (Heed OpReadTxn)
  else if fails E (OpGet i) then Err (Heed (OpGet i))
  else match chain_db st !! i with
       | Some b => Ok b
       | None => Err (BlockNotFound i)
       end.

(** [Blockchain::get_hash_at] *)
Definition get_hash_at (st : Blockchain) (i : N) : outcome Hash :=
  match get_block st i with
  | Ok b => Ok (hash E b)
  | Err e => Err e
  | Panic => Panic
  end.

(** [Blockchain::append] *)
Definition append (st : Blockchain) (block : Block) : outcome unit * Blockchain :=
  match get_block st (height st) with
  | Err e => (Err e, st)
  | Panic => (Panic, st)
  | Ok head_block =>
      if negb (is_valid E block head_block) then (Err InvalidNewBlock, st)
      else if fails E OpWriteTxn then (Err (Heed OpWriteTxn), st)
      else if fails E (OpPut (height st + 1)) then (Err (Heed (OpPut (height st + 1))), st)
      else if fails E OpCommit then (Err (Heed OpCommit), st)
      else (Ok tt, {| chain_db := <[(height st + 1)%N := block]> (chain_db st);
                      hash_indexes := hash_indexes st;
                      height := height st + 1;
                      ballot_pool := ballot_pool st |})
  end.

(** The stripping loop of [try_update_longest]: [n] indices from
    [index] on, read and deleted through the write transaction [wtxn];
    the ballots of every deleted ballots block are pushed on the pool
    (which is [self.ballot_pool], mutated in place). *)
Fixpoint strip_loop (n : nat) (index : N) (wtxn : gmap N Block)
    (pool : list (Signed Ballot)) : outcome (gmap N Block) * list (Signed Ballot) :=
  match n with
  | O => (Ok wtxn, pool)
  | S n' =>
      if fails E (OpGet index) then (Err (Heed (OpGet index)), pool)
      else match wtxn !! index with
           | None => strip_loop n' (index + 1) wtxn pool
           | Some block =>
               if fails E (OpDelete index) then (Err (Heed (OpDelete index)), pool)
               else
                 let deleted := bool_decide (is_Some (wtxn !! index)) in
                 let pool' :=
                   if deleted then
                     match get_ballots block with
                     | Some ballots => pool ++ ballots
                     | None => pool
                     end
                   else pool in
                 strip_loop n' (index + 1) (delete index wtxn) pool'
           end
  end.

(** The re-appending loop: [blocks[k]] written at [index + k]; returns
    the transaction and the final value of [index]. *)
Fixpoint put_loop (blocks : list Block) (index : N) (wtxn : gmap N Block)
    : outcome (gmap N Block * N) :=
  match blocks with
  | [] => Ok (wtxn, index)
  | b :: bs =>
      if fails E (OpPut index) then Err (Heed (OpPut index))
      else put_loop bs (index + 1) (<[index := b]> wtxn)
  end.

(** [Blockchain::try_update_longest]: an early [?] drops the write
    transaction, which aborts it; pushes already made on the pool stay. *)
Definition try_update_longest (st : Blockchain) (fork_index : N) (blocks : list Block)
    : outcome N * Blockchain :=
  match blocks with
  | [] => (Panic, st) (* blocks[0] out of bounds *)
  | b0 :: _ =>
      match get_block st fork_index with
      | Err e => (Err e, st)
      | Panic => (Panic, st)
      | Ok fork_block =>
          if negb (bool_decide (hash E b0 = hash E fork_block))
             || negb (is_valid_chain E blocks)
          then (Err InvalidNewBlock, st)
          else if fails E OpWriteTxn then (Err (Heed OpWriteTxn), st)
          else
            let '(r, pool) := strip_loop (N.to_nat (height st - fork_index)) fork_index
                                (chain_db st) (ballot_pool st) in
            let st_err := {| chain_db := chain_db st; hash_indexes := hash_indexes st;
                             height := height st; ballot_pool := pool |} in
            match r with
            | Err e => (Err e, st_err)
            | Panic => (Panic, st_err)
            | Ok wtxn =>
                match put_loop blocks fork_index wtxn with
                | Err e => (Err e, st_err)
                | Panic => (Panic, st_err)
                | Ok (wtxn', index) =>
                    if fails E OpCommit then (Err (Heed OpCommit), st_err)
                    else (Ok index, {| chain_db := wtxn'; hash_indexes := hash_indexes st;
                                       height := index - 1; ballot_pool := pool |})
                end
            end
      end
  end.

(** [Blockchain::blocks]: indices [1 .. height) read one by one; a read
    error is [unwrap]ped, i.e. a panic. *)
Fixpoint blocks_loop (st : Blockchain) (n : nat) (index : N) : outcome (list Block) :=
  match n with
  | O => Ok []
  | S n' =>
      match get_block st index with
      | Ok b =>
          match blocks_loop st n' (index + 1) with
          | Ok bs => Ok (b :: bs)
          | Err e => Err e
          | Panic => Panic
          end
      | _ => Panic
      end
  end.

Definition blocks (st : Blockchain) : outcome (list Block) :=
  blocks_loop st (N.to_nat (height st - 1)) 1.
(** The loop of [Blockchain::blocks_from] over [n] indices from [index]
    on, inside one read transaction. *)
Fixpoint blocks_from_loop (st : Blockchain) (n : nat) (index : N) : outcome (list Block) :=
  match n with
  | O => Ok []
  | S n' =>
      if fails E (OpGet index) then Err (Heed (OpGet index))
      else match chain_db st !! index with
           | Some block =>
               match blocks_from_loop st n' (index + 1) with
               | Ok bs => Ok (block :: bs)
               | Err e => Err e
               | Panic => Panic
               end
           | None => Err (BlockNotFound index)
           end
  end.

(** [Blockchain::blocks_from]: indices [start_index .. height + 1). *)
Definition blocks_from (st : Blockchain) (start_index : N) : outcome (list Block) :=
  if fails E OpReadTxn then Err (Heed OpReadTxn)
  else blocks_from_loop st (N.to_nat (height st + 1 - start_index)) start_index.

(** [Blockchain::get_block_from_hash] *)
Definition get_block_from_hash (st : Blockchain) (h : Hash) : outcome Block :=
  match hash_indexes st !! h with
  | Some index => get_block st index
  | None => Err (BlockNotFound 0)
  end.

(** [Blockchain::try_get_block] *)
Definition try_get_block (st : Blockchain) (index : N) : option Block :=
  match get_block st index with
  | Ok block => Some block
  | _ => None
  end.

(** [struct BlockchainIter] as the pair [(curr_index, chain)];
    [Blockchain::iter] starts it at index 1. *)
Definition iter (st : Blockchain) : N * Blockchain := (1%N, st).

(** [BlockchainIter::next]: the index is incremented before the read. *)
Definition iter_next (it : N * Blockchain) : option Block * (N * Blockchain) :=
  let curr_index := (it.1 + 1)%N in
  (try_get_block it.2 curr_index, (curr_index, it.2)).

(** The results of [n] successive calls of [next]. *)
Fixpoint iter_take (n : nat) (it : N * Blockchain) : list (option Block) :=
  match n with
  | O => []
  | S n' => let '(item, it') := iter_next it in item :: iter_take n' it'
  end.

(** [const BLOCK_SIZE] *)
Definition BLOCK_SIZE : nat := 2.

(** [Blockchain::pool_ballot]; [timestamp], [signer_key] and [pow] are
    the inputs of the [Block::new] call.  The result of [append] is
    discarded ([let _ = ...]). *)
Definition pool_ballot (st : Blockchain) (ballot : Signed Ballot) (timestamp : Z)
    (signer_key : VerifyingKey) (pow : list Z * list Z) : outcome unit * Blockchain :=
  let pool := ballot_pool st ++ [ballot] in
  let pool_size := length pool in
  if (BLOCK_SIZE <=? pool_size)%nat then
    let block_ballots := drop (pool_size - BLOCK_SIZE) pool in
    let st1 := {| chain_db := chain_db st; hash_indexes := hash_indexes st;
                  height := height st; ballot_pool := take (pool_size - BLOCK_SIZE) pool |} in
    match get_block st1 (height st1) with
    | Err e => (Err e, st1)
    | Panic => (Panic, st1)
    | Ok prev =>
        match block_new E timestamp signer_key pow prev block_ballots with
        | Ok block => let '(_, st2) := append st1 block in (Ok tt, st2)
        | Err e => (Err e, st1)
        | Panic => (Panic, st1)
        end
    end
  else (Ok tt, {| chain_db := chain_db st; hash_indexes := hash_indexes st;
                  height := height st; ballot_pool := pool |}).
End ChainOps.

(** The hash index agrees with the persistent map: every stored block's
    hash maps to its index, and nothing else is mapped. *)
Definition hash_index_agrees (E : Env) (st : Blockchain) : Prop :=
  (forall i b, chain_db st !! i = Some b -> hash_indexes st !! hash E b = Some i) /\
  (forall h i, hash_indexes st !! h = Some i ->
               exists b, chain_db st !! i = Some b /\ hash E b = h).

(** [st] with the block at index [height st] replaced by [b']. *)
Definition with_head (st : Blockchain) (b' : Block) : Blockchain :=
  {| chain_db := <[height st := b']> (chain_db st); hash_indexes := hash_indexes st;
     height := height st; ballot_pool := ballot_pool st |}.

End Votechain.
Import Votechain.

(* ------------------------------------------------------------------ *)
(** ** src/node/src/trustee/delegations.rs *)
(* ------------------------------------------------------------------ *)

Module Delegations.

(** [struct DelegationGraph] *)
Record DelegationGraph := mkDelegationGraph {
  delegation_map : gmap VerifyingKey VerifyingKey;
  representation_adj_list : gmap VerifyingKey (list VerifyingKey) }.

(** [DelegationGraph::get_adj_list]: every delegator pushed onto the list
    of its representative, in the map's iteration order. *)
Definition get_adj_list (delegation_map : gmap VerifyingKey VerifyingKey)
    : gmap VerifyingKey (list VerifyingKey) :=
  map_fold (fun delegate_key representative_key adj_list =>
              match adj_list !! representative_key with
              | Some list => <[representative_key := list ++ [delegate_key]]> adj_list
              | None => <[representative_key := [delegate_key]]> adj_list
              end) ∅ delegation_map.

(** [DelegationGraph::new] *)
Definition new (delegation_map : gmap VerifyingKey VerifyingKey) : DelegationGraph :=
  {| delegation_map := delegation_map;
     representation_adj_list := get_adj_list delegation_map |}.

(** [children.iter().for_each(|child| if !visited.contains(child) &&
    !voters.contains(child) { stack.push(child) })]; the stack is a
    list whose head is the top of the [Vec]. *)
Definition push_children (visited voters : gset VerifyingKey)
    (children stack : list VerifyingKey) : list VerifyingKey :=
  fold_left (fun stack child =>
               if decide ((child ∉ visited) /\ (child ∉ voters)) then child :: stack else stack)
            children stack.

(** The [while let Some(next) = stack.pop()] loop of [resolve_power];
    [fuel] bounds the number of iterations ([None] once it is spent). *)
Fixpoint resolve_loop (adj : gmap VerifyingKey (list VerifyingKey))
    (voters : gset VerifyingKey) (fuel : nat) (stack : list VerifyingKey)
    (visited : gset VerifyingKey) (accumulator : N) : option N :=
  match stack with
  | [] => Some accumulator
  | next :: rest =>
      match fuel with
      | O => None
      | S fuel' =>
          let visited' := {[next]} ∪ visited in
          let stack' :=
            match adj !! next with
            | Some children => push_children visited' voters children rest
            | None => rest
            end in
          resolve_loop adj voters fuel' stack' visited' (accumulator + 1)%N
      end
  end.

(** [DelegationGraph::resolve_power] *)
Definition resolve_power (g : DelegationGraph) (fuel : nat) (public_key : VerifyingKey)
    (voters : gset VerifyingKey) : option N :=
  resolve_loop (representation_adj_list g) voters fuel [public_key] ∅ 0%N.

(** [DelegationGraph::generate_weights]; the [HashSet] is iterated in
    the order of [elements]. *)
Definition generate_weights (g : DelegationGraph) (fuel : nat) (voters : gset VerifyingKey)
    : option (gmap VerifyingKey N) :=
  foldr (fun voter acc =>
           match acc with
           | None => None
           | Some weights =>
               match resolve_power g fuel voter voters with
               | Some power => Some (<[voter := power]> weights)
               | None => None
               end
           end) (Some ∅) (elements voters).

(** The sum of the values of a weight map. *)
Definition weights_total (weights : gmap VerifyingKey N) : N :=
  map_fold (fun _ w s => (w + s)%N) 0%N weights.

(** [x] is counted in the power of [v]: reachable from [v] through the
    inverse adjacency, never entering a voter other than the root. *)
Inductive reaches (g : DelegationGraph) (voters : gset VerifyingKey) (v : VerifyingKey)
    : VerifyingKey -> Prop :=
| reaches_root : reaches g voters v v
| reaches_step p children c :
    reaches g voters v p ->
    representation_adj_list g !! p = Some children ->
    c ∈ children -> c ∉ voters ->
    reaches g voters v c.

End Delegations.
Import Delegations.

(* ------------------------------------------------------------------ *)
(** ** src/node/src/trustee/resolve.rs *)
(* ------------------------------------------------------------------ *)

Module Resolve.

(** One step of the extraction loop: the signer joins [voter_set]; its
    entry in [weighted_votes] is inserted, or replaced when the new
    ballot's timestamp is strictly greater. *)
Definition retain_ballot (acc : gmap VerifyingKey Ballot * gset VerifyingKey)
    (ballot : Signed Ballot) : gmap VerifyingKey Ballot * gset VerifyingKey :=
  let '(weighted_votes, voter_set) := acc in
  let voter_set' := {[signer ballot]} ∪ voter_set in
  let weighted_votes' :=
    match weighted_votes !! signer ballot with
    | Some current_ballot =>
        if timestamp (data ballot) >? timestamp current_ballot
        then <[signer ballot := data ballot]> weighted_votes
        else weighted_votes
    | None => <[signer ballot := data ballot]> weighted_votes
    end in
  (weighted_votes', voter_set').

(** The loop over [chain.blocks()] and their ballots. *)
Definition collect_latest (blocks : list Block) : gmap VerifyingKey Ballot * gset VerifyingKey :=
  fold_left (fun acc block =>
               match get_ballots block with
               | Some ballots => fold_left retain_ballot ballots acc
               | None => acc
               end) blocks (∅, ∅).

(** [generate_vote_result].  [r_for] and [r_against] are the random
    values [Paillier::encrypt] draws for the two encryptions of zero;
    [fuel] bounds the traversals of [generate_weights].  [None] when
    [chain.blocks()] panics or the traversals run out of fuel. *)
Definition generate_vote_result (E : Env) (dk : DecryptionKey) (ek : EncryptionKey)
    (chain : Blockchain) (delegations : DelegationGraph) (fuel : nat)
    (r_for r_against : Z) : option bool :=
  match blocks E chain with
  | Ok chain_blocks =>
      let '(weighted_votes, voter_set) := collect_latest chain_blocks in
      match generate_weights delegations fuel voter_set with
      | None => None
      | Some weight_map =>
          let weighted :=
            map_fold (fun voter w wv =>
                        match wv !! voter with
                        | Some ballot => <[voter := weight ek w ballot]> wv
                        | None => wv
                        end) weighted_votes weight_map in
          let all_ballots := map snd (map_to_list weighted) in
          let '(result_for, result_against) :=
            fold_left (fun acc ballot => sum ek ballot (fst acc) (snd acc)) all_ballots
              (encrypt_with_chosen_randomness ek 0 r_for,
               encrypt_with_chosen_randomness ek 0 r_against) in
          Some (paillier_decrypt dk result_for >? paillier_decrypt dk result_against)
      end
  | _ => None
  end.

(** The signed ballots the extraction loop visits, in order. *)
Definition chain_ballots (blocks : list Block) : list (Signed Ballot) :=
  concat (map (fun block => match get_ballots block with
                            | Some ballots => ballots
                            | None => []
                            end) blocks).

(** What the extraction loop keeps after visiting the ballots [seen]:
    [voter_set] is the set of their signers and the domain of
    [weighted_votes], and each signer's entry is one of its ballots with
    the greatest timestamp among them. *)
Definition retains_latest (acc : gmap VerifyingKey Ballot * gset VerifyingKey)
    (seen : list (Signed Ballot)) : Prop :=
  dom (fst acc) = snd acc /\
  (forall s, s ∈ snd acc <-> exists sb, sb ∈ seen /\ signer sb = s) /\
  (forall s b, fst acc !! s = Some b ->
     (exists sb, sb ∈ seen /\ signer sb = s /\ data sb = b) /\
     forall sb, sb ∈ seen -> signer sb = s -> timestamp (data sb) <= timestamp b).

End Resolve.
Import Resolve.

(* ------------------------------------------------------------------ *)
(** ** src/node/src/protocols/chain_sync/protocol.rs *)
(* ------------------------------------------------------------------ *)

Module ChainSync.

(** [enum SyncResponse]; [Found] carries a [ChainSyncInfo]. *)
Inductive SyncResponse :=
| Found (fork_index : N) (block : Block) (remaining : N)
| NotFound.

(** What [framed_stream.try_next()] yields: a decoded response or a
    decoding error; the end of the list is the end of the stream. *)
Inductive Frame :=
| Decoded (r : SyncResponse)
| DecodeError.

(** How [send_sync] ends: [Ok(stream)], [Err(CborCodecError)] (the
    sync error), or a panic. *)
Inductive SyncResult :=
| SyncOk
| SyncErr (reason : string)
| SyncPanic.

Section Send.
Context (E : Env).
(** whether the INFO level of [tracing] is enabled (the default of a
    debug build); the argument [update_result.unwrap()] of the
    [tracing::info!] is only evaluated when it is *)
Context (info_enabled : bool).

(** The [loop] of [send_sync]: every iteration sends a request (its
    send result is ignored) built with [get_hash_at(height).unwrap()],
    then reads one frame. *)
Fixpoint send_sync_loop (frames : list Frame) (height : N) (block_buffer : list Block)
    (chain : Blockchain) : SyncResult * Blockchain :=
  match get_hash_at E chain height with
  | Ok _ =>
      match frames with
      | [] => (SyncErr "Didn't recieve a response from the peer", chain)
      | DecodeError :: _ => (SyncErr "decoding error", chain)
      | Decoded (Found fork_index block remaining) :: rest =>
          let block_buffer := block_buffer ++ [block] in
          if (remaining =? 0)%N then
            let '(update_result, chain') := try_update_longest E chain fork_index block_buffer in
            match update_result with
            | Ok _ => (SyncOk, chain')
            | Err _ => if info_enabled then (SyncPanic, chain') else (SyncOk, chain')
            | Panic => (SyncPanic, chain')
            end
          else send_sync_loop rest height block_buffer chain
      | Decoded NotFound :: rest =>
          if (height =? 1)%N
          then (SyncErr "Failed to find valid sync point with peer", chain)
          else send_sync_loop rest (height - 1) block_buffer chain
      end
  | _ => (SyncPanic, chain)
  end.

(** [send_sync] *)
Definition send_sync (frames : list Frame) (chain : Blockchain) : SyncResult * Blockchain :=
  send_sync_loop frames (Votechain.height chain) [] chain.
End Send.

(** The [for block in blocks] loop of [recv_sync].  [send_fails k] says
    whether the [k]-th send of the session fails; a failed frame is not
    delivered and [remaining] is only decremented after a successful
    send.  Returns the delivered frames and the send counter. *)
Fixpoint send_found (send_fails : nat -> bool) (k : nat) (fork_index : N)
    (blocks : list Block) (remaining : N) : list SyncResponse * nat :=
  match blocks with
  | [] => ([], k)
  | block :: rest =>
      if send_fails k then send_found send_fails (S k) fork_index rest remaining
      else
        let '(frames, k') := send_found send_fails (S k) fork_index rest (remaining - 1) in
        (Found fork_index block (remaining - 1) :: frames, k')
  end.

(** The [loop] of [recv_sync] over the requests it reads, as
    [(index, hash)] pairs; returns the delivered frames and how the
    function ends. *)
Fixpoint recv_sync_loop (E : Env) (send_fails : nat -> bool) (k : nat) (chain : Blockchain)
    (requests : list (N * Z)) : list SyncResponse * SyncResult :=
  match requests with
  | [] => ([], SyncErr "Didn't recieve metadata from the peer")
  | (index, request_hash) :: rest =>
      match get_hash_at E chain index with
      | Err (BlockNotFound _) => ([], SyncErr "Failed to find valid sync point with peer")
      | Err _ => ([], SyncErr "Other Error Happened")
      | Panic => ([], SyncPanic)
      | Ok h =>
          if bool_decide (h = request_hash) then
            let blocks := match blocks_from E chain index with
                          | Ok bs => bs
                          | _ => []
                          end in
            (fst (send_found send_fails k index blocks (N.of_nat (length blocks))), SyncOk)
          else
            let frames := if send_fails k then [] else [NotFound] in
            if (index =? 0)%N
            then (frames, SyncErr "Failed to find valid sync point with peer")
            else let '(frames', r) := recv_sync_loop E send_fails (S k) chain rest in
                 (frames ++ frames', r)
      end
  end.

(** [recv_sync] answering the requests [requests]. *)
Definition recv_sync (E : Env) (send_fails : nat -> bool) (chain : Blockchain)
    (requests : list (N * Z)) : list SyncResponse * SyncResult :=
  recv_sync_loop E send_fails 0 chain requests.

(** The requests the initiator sends while the peer answers [NotFound]:
    [(height, get_hash_at(height))] for [height] going down from its
    chain height, [n] of them at most. *)
Fixpoint descending_requests (E : Env) (chain : Blockchain) (n : nat) (height : N)
    : list (N * Z) :=
  match n with
  | O => []
  | S n' =>
      match get_hash_at E chain height with
      | Ok h => (height, h) :: descending_requests E chain n' (height - 1)
      | _ => []
      end
  end.

(** A sync between an initiator and a responder whose sends all
    succeed: the responder answers the initiator's descending requests,
    and the initiator reads the responder's frames.  (Requests the
    initiator sends after the first [Found] are never read.) *)
Definition sync_session (E : Env) (info_enabled : bool) (initiator responder : Blockchain)
    : SyncResult * Blockchain :=
  let requests := descending_requests E initiator (N.to_nat (Votechain.height initiator))
                    (Votechain.height initiator) in
  send_sync E info_enabled (map Decoded (fst (recv_sync E (fun _ => false) responder requests)))
    initiator.
End ChainSync.
Import ChainSync.

(* ------------------------------------------------------------------ *)
(** ** src/node/src/census.rs *)
(* ------------------------------------------------------------------ *)

Module Census.

(** [struct DumbCensus] *)
Record DumbCensus := mkDumbCensus { census_keys : gset VerifyingKey }.

(** [DumbCensus::from_vec] *)
Definition from_vec (input : list VerifyingKey) : DumbCensus :=
  mkDumbCensus (fold_left (fun census_keys key => {[key]} ∪ census_keys) input ∅).

(** [DumbCensus::as_vec]; the [HashSet] is iterated in the order of
    [elements]. *)
Definition as_vec (c : DumbCensus) : list VerifyingKey := elements (census_keys c).

(** [DumbCensus::contains_voter] *)
Definition contains_voter (c : DumbCensus) (key : VerifyingKey) : bool :=
  bool_decide (key ∈ census_keys c).

End Census.
Import Census.

(* ------------------------------------------------------------------ *)
(** ** Concrete inputs *)
(* ------------------------------------------------------------------ *)

Module Samples.

(** A stand-in for the environment: a polynomial digest of the byte
    string reduced to 256 bits, an encoding of a signed ballot by its
    signature, signer and timestamp, and a store that never fails. *)
Definition env0 : Env :=
  mkEnv (fun bs => fold_left (fun h x => (h * 257 + x) mod 2 ^ 256) bs 0)
        (fun sb => signature sb ++ [signer sb; timestamp (data sb)])
        (fun _ => false).

Definition proof0 : RangeProofNi := mkRangeProofNi 35 3 0 [].

Definition ballot_at (ts : Z) (iid : string) (c_for c_against : Z) : Ballot :=
  mkBallot ts iid c_for c_against proof0 proof0.

Definition signed_by (key : VerifyingKey) (sig : Z) (b : Ballot) : Signed Ballot :=
  mkSigned [sig] key b.

Definition ballot_X : Signed Ballot := signed_by 11 1 (ballot_at 100 "issue" 1 1).
Definition ballot_Y : Signed Ballot := signed_by 12 2 (ballot_at 101 "issue" 1 1).
Definition ballot_Z : Signed Ballot := signed_by 13 3 (ballot_at 102 "issue" 1 1).

Definition block_G : Block := genesis 7 [] [].
Definition block_B1 : Block :=
  mkBlock 1000 (hash env0 block_G) 21 [] (Ballots [ballot_X; ballot_Y]) [].
Definition block_B1' : Block :=
  mkBlock 1001 (hash env0 block_G) 22 [] (Ballots []) [].
Definition block_B2' : Block :=
  mkBlock 1002 (hash env0 block_B1') 22 [] (Ballots []) [].

(** A store whose commit fails. *)
Definition env_commit_fails : Env :=
  mkEnv (digest env0) (encode_signed env0)
        (fun op => match op with OpCommit => true | _ => false end).

(** The node of scenario S5: chain [G, B1] with [B1] holding X and Y,
    pool [Z]. *)
Definition s5_chain : Blockchain :=
  {| chain_db := <[2%N := block_B1]> {[1%N := block_G]};
     hash_indexes := <[hash env0 block_B1 := 2%N]> {[hash env0 block_G := 1%N]};
     height := 2; ballot_pool := [ballot_Z] |}.

(** What the peer streams: its blocks from the common block [G] on. *)
Definition s5_peer : list Block := [block_G; block_B1'; block_B2'].

(** The initiator's view of scenario S5: the peer does not hold [B1]
    (index 2) but matches [G] (index 1) and streams [G, B1', B2']. *)
Definition s5_frames : list Frame :=
  [Decoded NotFound; Decoded (Found 1 block_G 2); Decoded (Found 1 block_B1' 1);
   Decoded (Found 1 block_B2' 0)].

(** The peer of scenario S5 as a node: chain [G, B1', B2']. *)
Definition s5_peer_chain : Blockchain :=
  {| chain_db := <[3%N := block_B2']> (<[2%N := block_B1']> {[1%N := block_G]});
     hash_indexes := <[hash env0 block_B2' := 3%N]>
                       (<[hash env0 block_B1' := 2%N]> {[hash env0 block_G := 1%N]});
     height := 3; ballot_pool := [] |}.

(** A toy Paillier instance, [n = 5 * 7]. *)
Definition ek35 : EncryptionKey := mkEncryptionKey 35 1225.
Definition dk35 : DecryptionKey := mkDecryptionKey 5 7.

(** Signer 11 votes "for" at time 100, then "against" at time 200. *)
Definition vote_early : Signed Ballot :=
  signed_by 11 4 (ballot_at 100 "issue" (encrypt_with_chosen_randomness ek35 1 2)
                                        (encrypt_with_chosen_randomness ek35 0 2)).
Definition vote_late : Signed Ballot :=
  signed_by 11 5 (ballot_at 200 "issue" (encrypt_with_chosen_randomness ek35 0 3)
                                        (encrypt_with_chosen_randomness ek35 1 3)).
Definition block_C2 : Block :=
  mkBlock 2000 (hash env0 block_G) 21 [] (Ballots [vote_early]) [].
Definition block_C3 : Block :=
  mkBlock 3000 (hash env0 block_C2) 21 [] (Ballots [vote_late]) [].

(** The chain [G, C2, C3]: the earlier ballot in [C2], the later one in
    the head [C3]. *)
Definition c5_chain : Blockchain :=
  {| chain_db := <[3%N := block_C3]> (<[2%N := block_C2]> {[1%N := block_G]});
     hash_indexes := <[hash env0 block_C3 := 3%N]>
                       (<[hash env0 block_C2 := 2%N]> {[hash env0 block_G := 1%N]});
     height := 3; ballot_pool := [] |}.

Definition no_delegations : DelegationGraph := Delegations.new ∅.

(** The delegation map of the tests [test_mixed_cast_weight]:
    0 -> 3, 1 -> 2, 2 -> 3, 4 -> 5 over the census 0 .. 5. *)
Definition test_map : gmap VerifyingKey VerifyingKey :=
  <[4 := 5]> (<[2 := 3]> (<[1 := 2]> {[0 := 3]})).
Definition test_census : gset VerifyingKey := list_to_set [0; 1; 2; 3; 4; 5].
Definition test_voters : gset VerifyingKey := list_to_set [3; 5].
Definition test_weights : gmap VerifyingKey N := <[3 := 4%N]> {[5 := 2%N]}.

(** A store with a hole: blocks at 1 and 3, none at 2. *)
Definition gap_chain : Blockchain :=
  {| chain_db := <[3%N := block_C3]> {[1%N := block_G]};
     hash_indexes := <[hash env0 block_C3 := 3%N]> {[hash env0 block_G := 1%N]};
     height := 3; ballot_pool := [] |}.

(** Two voters delegating to each other: 1 -> 2, 2 -> 1. *)
Definition cast_map : gmap VerifyingKey VerifyingKey := <[2 := 1]> {[1 := 2]}.
Definition cast_voters : gset VerifyingKey := list_to_set [1; 2].


End Samples.
Import Samples.

(* ------------------------------------------------------------------ *)
(** ** Ballots: facts *)
(* ------------------------------------------------------------------ *)

Module BallotFacts.

(** C1. [Ballot::validate_proofs] accepts every ballot: the two range-proof
    verifications are commented out and the issue id is not inspected. *)
Theorem validate_proofs_always_true (b : Ballot) : validate_proofs b = true.
Proof. reflexivity. Qed.

(** A ballot with an empty issue id and placeholder proofs is accepted. *)
Lemma validate_proofs_accepts_empty_issue :
  exists b, issue_id b = "" /\ proof_for b = proof0 /\ validate_proofs b = true.
Proof. exists (ballot_at 0 "" 1 1). repeat split. Qed.

End BallotFacts.

(* ------------------------------------------------------------------ *)
(** ** Chain store: facts *)
(* ------------------------------------------------------------------ *)

Module ChainFacts.

Section Facts.
Context (E : Env).

(** C6. Reorg atomicity: whenever [try_update_longest] returns an error, the
    height and the persistent store are those from before the call
    (only the ballot pool may have grown). *)
Theorem try_update_longest_atomic (st : Blockchain) (fork_index : N)
    (bs : list Block) (e : Error) (st' : Blockchain) :
  try_update_longest E st fork_index bs = (Err e, st') ->
  height st' = height st /\ chain_db st' = chain_db st.
Proof.
  unfold try_update_longest.
  destruct bs as [| b0 rest]; [congruence |].
  destruct (get_block E st fork_index) as [fb | e0 |]; [| intros [= _ <-]; auto | congruence].
  destruct (negb _ || negb _); [intros [= _ <-]; auto |].
  destruct (fails E OpWriteTxn); [intros [= _ <-]; auto |].
  destruct (strip_loop E _ _ _ _) as [r pool].
  destruct r as [wtxn | e1 |]; [| intros [= _ <-]; auto | congruence].
  destruct (put_loop E _ _ _) as [[wtxn' index] | e2 |]; [| intros [= _ <-]; auto | congruence].
  destruct (fails E OpCommit); [intros [= _ <-]; auto | congruence].
Qed.

(** C7. Reorg idempotence: on a reliable store, a reorg at the current
    height with the head block alone succeeds and leaves the chain
    (store, hash index, height and pool) exactly as it was. *)
Theorem try_update_longest_head_noop (st : Blockchain) (head : Block) :
  (forall op, fails E op = false) ->
  chain_db st !! height st = Some head ->
  try_update_longest E st (height st) [head] = (Ok (height st + 1)%N, st).
Proof.
  intros Hok Hhead. unfold try_update_longest, get_block.
  rewrite !Hok, Hhead. simpl.
  rewrite bool_decide_eq_true_2 by reflexivity. simpl.
  rewrite N.sub_diag. simpl. rewrite !Hok.
  rewrite insert_id by exact Hhead.
  replace (height st + 1 - 1)%N with (height st) by lia.
  destruct st; reflexivity.
Qed.
End Facts.

Lemma try_update_longest_atomic_witness :
  try_update_longest env_commit_fails s5_chain 1%N s5_peer = (Err (Heed OpCommit), s5_chain) /\
  (height s5_chain = height s5_chain /\ chain_db s5_chain = chain_db s5_chain).
Proof.
  assert (H : try_update_longest env_commit_fails s5_chain 1%N s5_peer
              = (Err (Heed OpCommit), s5_chain)) by (vm_compute; reflexivity).
  split; [exact H |].
  exact (try_update_longest_atomic env_commit_fails s5_chain 1%N s5_peer _ _ H).
Defined.

Lemma try_update_longest_head_noop_witness :
  try_update_longest env0 s5_chain (height s5_chain) [block_B1]
  = (Ok (height s5_chain + 1)%N, s5_chain).
Proof.
  apply try_update_longest_head_noop.
  - intros op; reflexivity.
  - vm_compute; reflexivity.
Defined.

(** C2. Scenario S5 run on the code: the node holds [G, B1] (B1 with X, Y)
    and pool [Z]; the peer streams [G, B1', B2'] from fork index 1.  The
    reorg succeeds and the chain becomes [G, B1', B2'], but the pool is
    still [Z]: the stripping range [fork_index .. height) never reaches
    the old head [B1], so X and Y (in neither [B1'] nor [B2']) are lost. *)
Theorem try_update_longest_s5_loses_head_ballots :
  exists st',
    try_update_longest env0 s5_chain 1%N s5_peer = (Ok 4%N, st') /\
    chain_db st' = <[3%N := block_B2']> (<[2%N := block_B1']> {[1%N := block_G]}) /\
    height st' = 3%N /\
    ballot_pool st' = [ballot_Z] /\
    get_ballots block_B1 = Some ([ballot_X; ballot_Y]) /\
    (ballot_X ∉ ballot_pool st') /\ (ballot_Y ∉ ballot_pool st').
Proof.
  eexists. split; [vm_compute; reflexivity |].
  split; [vm_compute; reflexivity |].
  split; [reflexivity |]. split; [reflexivity |]. split; [reflexivity |].
  simpl. split; intros Hin%list_elem_of_singleton; discriminate Hin.
Qed.

Lemma new_chain_agrees (E : Env) (g : Block) (st : Blockchain) :
  new_chain E g = Ok st -> hash_index_agrees E st.
Proof.
  unfold new_chain.
  destruct (fails E OpReadTxn), (fails E OpWriteTxn), (fails E (OpPut 1)),
    (fails E OpCommit); try discriminate.
  intros [= <-]. split; cbn [chain_db hash_indexes].
  - intros i b Hb. apply lookup_singleton_Some in Hb as [<- <-].
    apply lookup_singleton_eq.
  - intros h i Hh. apply lookup_singleton_Some in Hh as [<- <-].
    exists g. split; [apply lookup_singleton_eq | reflexivity].
Qed.

(** C4. Append does not maintain the hash index: a freshly opened chain
    satisfies the agreement invariant, and after appending a valid block
    the new block's hash is not mapped, so the invariant is broken. *)
Theorem append_breaks_hash_index :
  exists st0 st1,
    new_chain env0 block_G = Ok st0 /\ hash_index_agrees env0 st0 /\
    append env0 st0 block_B1 = (Ok tt, st1) /\
    chain_db st1 !! 2%N = Some block_B1 /\
    hash_indexes st1 !! hash env0 block_B1 = None /\
    ~ hash_index_agrees env0 st1.
Proof.
  eexists _, _. split; [reflexivity |]. split; [apply (new_chain_agrees env0 block_G); reflexivity |].
  split; [vm_compute; reflexivity |].
  split; [vm_compute; reflexivity |].
  split; [vm_compute; reflexivity |].
  intros [Hagree _].
  specialize (Hagree 2%N block_B1).
  vm_compute in Hagree. discriminate (Hagree eq_refl).
Qed.

Section Snapshot.
Context (E : Env).

Lemma blocks_loop_ext (st1 st2 : Blockchain) (n : nat) (index : N) :
  (forall i, (index <= i < index + N.of_nat n)%N -> chain_db st1 !! i = chain_db st2 !! i) ->
  blocks_loop E st1 n index = blocks_loop E st2 n index.
Proof.
  revert index. induction n as [| n IH]; intros index Hi; [reflexivity |].
  cbn [blocks_loop]. unfold get_block. rewrite (Hi index) by lia.
  rewrite (IH (index + 1)%N) by (intros i Hr; apply Hi; lia). reflexivity.
Qed.

Lemma blocks_loop_spec (st : Blockchain) (n : nat) (index : N) :
  (forall op, fails E op = false) ->
  (forall i, (index <= i < index + N.of_nat n)%N -> is_Some (chain_db st !! i)) ->
  exists bs, blocks_loop E st n index = Ok bs /\ length bs = n /\
    (forall k, (k < n)%nat -> bs !! k = chain_db st !! (index + N.of_nat k)%N).
Proof.
  intros Hok. revert index. induction n as [| n IH]; intros index Hi.
  - exists []. split; [reflexivity |]. split; [reflexivity |]. intros k Hk; lia.
  - destruct (Hi index ltac:(lia)) as [b Hb].
    destruct (IH (index + 1)%N) as (bs & Hbs & Hlen & Hk); [intros i Hr; apply Hi; lia |].
    exists (b :: bs). cbn [blocks_loop]. unfold get_block. rewrite !Hok, Hb, Hbs.
    split; [reflexivity |]. split; [simpl; lia |].
    intros [| k] Hk'; simpl.
    + replace (index + N.of_nat 0)%N with index by lia. symmetry. exact Hb.
    + rewrite (Hk k) by lia. f_equal. lia.
Qed.

(** The head block is never read by [blocks]. *)
Lemma blocks_with_head (st : Blockchain) (b' : Block) :
  blocks E (with_head st b') = blocks E st.
Proof.
  unfold blocks. cbn [with_head height].
  apply blocks_loop_ext. intros i Hr. rewrite N2Nat.id in Hr.
  cbn [with_head chain_db]. rewrite lookup_insert_ne by lia. reflexivity.
Qed.
End Snapshot.

(** C10. On a reliable store holding blocks at indices [1 .. h-1], [blocks()]
    returns exactly those blocks, in order; the head at index [h] is not
    part of it: replacing the head leaves [blocks()] and the tally of
    [generate_vote_result] unchanged. *)
Theorem blocks_excludes_head (E : Env) (st : Blockchain) (b' : Block) :
  (forall op, fails E op = false) ->
  (forall i, (1 <= i < height st)%N -> is_Some (chain_db st !! i)) ->
  exists bs,
    blocks E st = Ok bs /\ length bs = N.to_nat (height st - 1) /\
    (forall k, (k < length bs)%nat -> bs !! k = chain_db st !! (N.of_nat k + 1)%N) /\
    blocks E (with_head st b') = Ok bs /\
    (forall dk ek dg fuel r_for r_against,
       generate_vote_result E dk ek (with_head st b') dg fuel r_for r_against
       = generate_vote_result E dk ek st dg fuel r_for r_against).
Proof.
  intros Hok Hpresent.
  destruct (blocks_loop_spec E st (N.to_nat (height st - 1)) 1 Hok) as (bs & Hbs & Hlen & Hk).
  { intros i Hr. rewrite N2Nat.id in Hr. apply Hpresent. lia. }
  exists bs. split; [exact Hbs |]. split; [exact Hlen |]. split.
  - intros k Hk'. rewrite Hk by lia. f_equal. lia.
  - split; [rewrite blocks_with_head; exact Hbs |].
    intros. unfold generate_vote_result. rewrite blocks_with_head. reflexivity.
Qed.

Lemma blocks_excludes_head_witness :
  exists bs,
    blocks env0 c5_chain = Ok bs /\ length bs = N.to_nat (height c5_chain - 1) /\
    (forall k, (k < length bs)%nat -> bs !! k = chain_db c5_chain !! (N.of_nat k + 1)%N) /\
    blocks env0 (with_head c5_chain block_G) = Ok bs /\
    (forall dk ek dg fuel r_for r_against,
       generate_vote_result env0 dk ek (with_head c5_chain block_G) dg fuel r_for r_against
       = generate_vote_result env0 dk ek c5_chain dg fuel r_for r_against).
Proof.
  apply (blocks_excludes_head env0 c5_chain block_G).
  - intros op. reflexivity.
  - intros i Hi. simpl in Hi.
    assert (i = 1%N \/ i = 2%N) as [-> | ->] by lia; vm_compute; eexists; reflexivity.
Defined.

(** C5. Latest-writer-wins fails when the later ballot is in the head block:
    on the chain [G, C2, C3], signer 11 votes "for" at time 100 (in
    [C2]) and "against" at time 200 (in the head [C3]).  The snapshot
    stops before [C3], the earlier ballot is the one retained, and the
    tally is "for" although the later ballot alone votes "against". *)
Theorem generate_vote_result_counts_superseded_ballot :
  signer vote_early = signer vote_late /\
  timestamp (data vote_early) < timestamp (data vote_late) /\
  chain_db c5_chain !! 2%N = Some block_C2 /\ get_ballots block_C2 = Some ([vote_early]) /\
  chain_db c5_chain !! 3%N = Some block_C3 /\ get_ballots block_C3 = Some ([vote_late]) /\
  blocks env0 c5_chain = Ok ([block_G; block_C2]) /\
  fst (collect_latest [block_G; block_C2]) !! signer vote_early = Some (data vote_early) /\
  paillier_decrypt dk35 (vote_for (data vote_late)) = 0 /\
  paillier_decrypt dk35 (vote_against (data vote_late)) = 1 /\
  generate_vote_result env0 dk35 ek35 c5_chain no_delegations 5 2 3 = Some true.
Proof.
  split; [reflexivity |]. split; [vm_compute; reflexivity |].
  split; [reflexivity |]. split; [reflexivity |].
  split; [reflexivity |]. split; [reflexivity |].
  split; [vm_compute; reflexivity |]. split; [vm_compute; reflexivity |].
  split; [vm_compute; reflexivity |]. split; [vm_compute; reflexivity |].
  vm_compute; reflexivity.
Qed.

(** C3. Scenario S5 seen from the sync initiator: the peer's blocks are
    received in full.  On a reliable store the reorg succeeds and
    [send_sync] returns [Ok].  When the commit fails the reorg returns
    an error, and [send_sync] does not return an error: it panics in
    [update_result.unwrap()] inside [tracing::info!] when INFO logging
    is on, and returns [Ok(stream)] when it is off. *)
Theorem send_sync_reorg_failure_not_err :
  fst (send_sync env0 true s5_frames s5_chain) = SyncOk /\
  fst (try_update_longest env_commit_fails s5_chain 1%N s5_peer) = Err (Heed OpCommit) /\
  fst (send_sync env_commit_fails true s5_frames s5_chain) = SyncPanic /\
  fst (send_sync env_commit_fails false s5_frames s5_chain) = SyncOk.
Proof.
  split; [vm_compute; reflexivity |]. split; [vm_compute; reflexivity |].
  split; vm_compute; reflexivity.
Qed.

End ChainFacts.

(* ------------------------------------------------------------------ *)
(** ** Delegation resolver: facts *)
(* ------------------------------------------------------------------ *)

Module DelegationFacts.

Definition child_of (adj : gmap VerifyingKey (list VerifyingKey)) (p c : VerifyingKey) : Prop :=
  exists l, adj !! p = Some l /\ c ∈ l.

Lemma push_children_eq visited voters children stack :
  push_children visited voters children stack =
  reverse (filter (fun c => (c ∉ visited) /\ (c ∉ voters)) children) ++ stack.
Proof.
  unfold push_children. revert stack.
  induction children as [| c cs IH]; intros stack; [reflexivity |].
  simpl. rewrite IH, filter_cons.
  case_decide; simpl; [| reflexivity]. by rewrite reverse_cons, <- app_assoc.
Qed.

(** The inverse adjacency of a delegation map: [c] is listed under [p]
    exactly when [c] delegates to [p], and no list repeats a delegator. *)
Lemma get_adj_list_spec (dm : gmap VerifyingKey VerifyingKey) :
  (forall p c, child_of (get_adj_list dm) p c <-> dm !! c = Some p) /\
  (forall p l, get_adj_list dm !! p = Some l -> NoDup l).
Proof.
  unfold get_adj_list, child_of.
  apply (map_fold_weak_ind
    (fun (r : gmap VerifyingKey (list VerifyingKey)) (m : gmap VerifyingKey VerifyingKey) =>
       (forall p c, (exists l, r !! p = Some l /\ c ∈ l) <-> m !! c = Some p) /\
       (forall p l, r !! p = Some l -> NoDup l))).
  - split.
    + intros p c. rewrite lookup_empty. split; [intros (l & Hl & _) | intros Hc]; discriminate.
    + intros p l Hl. rewrite lookup_empty in Hl. discriminate.
  - intros i x m r Hi [Hspec Hnd].
    assert (Hfresh : forall l, r !! x = Some l -> i ∉ l).
    { intros l Hl Hin. assert (m !! i = Some x) by (apply Hspec; eauto). congruence. }
    destruct (r !! x) as [l |] eqn:Hrx; split.
    + intros p c. destruct (decide (p = x)) as [-> | Hpx].
      * rewrite lookup_insert_eq. split.
        -- intros (l' & [= <-] & Hc). apply elem_of_app in Hc as [Hc | ->%list_elem_of_singleton].
           ++ destruct (decide (c = i)) as [-> | Hci].
              ** exfalso. eapply Hfresh; eauto.
              ** rewrite lookup_insert_ne by congruence. apply Hspec; eauto.
           ++ apply lookup_insert_eq.
        -- intros Hc. exists (l ++ [i]). split; [reflexivity |].
           destruct (decide (c = i)) as [-> | Hci].
           ++ apply elem_of_app. right. apply list_elem_of_singleton. reflexivity.
           ++ rewrite lookup_insert_ne in Hc by congruence.
              apply Hspec in Hc as (l' & Hl' & Hc). rewrite Hrx in Hl'. injection Hl' as <-.
              apply elem_of_app. left. exact Hc.
      * rewrite lookup_insert_ne by congruence. rewrite Hspec.
        destruct (decide (c = i)) as [-> | Hci].
        -- rewrite lookup_insert_eq, Hi. split; [discriminate | congruence].
        -- by rewrite lookup_insert_ne by congruence.
    + intros p l' Hl'. destruct (decide (p = x)) as [-> | Hpx].
      * rewrite lookup_insert_eq in Hl'. injection Hl' as <-.
        apply NoDup_app. split; [eapply Hnd; eauto |]. split; [| apply NoDup_singleton].
        intros y Hy ->%list_elem_of_singleton. eapply Hfresh; eauto.
      * rewrite lookup_insert_ne in Hl' by congruence. eauto.
    + intros p c. destruct (decide (p = x)) as [-> | Hpx].
      * rewrite lookup_insert_eq. split.
        -- intros (l' & [= <-] & ->%list_elem_of_singleton). apply lookup_insert_eq.
        -- intros Hc. exists [i]. split; [reflexivity |].
           destruct (decide (c = i)) as [-> | Hci]; [apply list_elem_of_singleton; reflexivity |].
           rewrite lookup_insert_ne in Hc by congruence.
           apply Hspec in Hc as (l' & Hl' & _). congruence.
      * rewrite lookup_insert_ne by congruence. rewrite Hspec.
        destruct (decide (c = i)) as [-> | Hci].
        -- rewrite lookup_insert_eq, Hi. split; [discriminate | congruence].
        -- by rewrite lookup_insert_ne by congruence.
    + intros p l' Hl'. destruct (decide (p = x)) as [-> | Hpx].
      * rewrite lookup_insert_eq in Hl'. injection Hl' as <-. apply NoDup_singleton.
      * rewrite lookup_insert_ne in Hl' by congruence. eauto.
Qed.

Section Dfs.
Context (dm : gmap VerifyingKey VerifyingKey) (voters : gset VerifyingKey)
        (v : VerifyingKey).
Hypothesis Hv : v ∈ voters.

Local Abbreviation adj := (get_adj_list dm).

Lemma child_of_functional p1 p2 c : child_of adj p1 c -> child_of adj p2 c -> p1 = p2.
Proof.
  intros H1 H2. apply (proj1 (get_adj_list_spec dm)) in H1, H2. congruence.
Qed.

(** The state of the traversal rooted at [v]. *)
Record dfs_inv (stack : list VerifyingKey) (visited : gset VerifyingKey) (acc : N) : Prop := {
  inv_acc : acc = N.of_nat (size visited);
  inv_reach : forall x, x ∈ visited \/ x ∈ stack -> reaches (new dm) voters v x;
  inv_nodup : NoDup stack;
  inv_fresh : forall x, x ∈ stack -> x ∉ visited;
  inv_closed : forall n c, n ∈ visited -> child_of adj n c -> c ∉ voters ->
                           c ∈ visited \/ c ∈ stack;
  inv_root : v ∈ visited \/ v ∈ stack;
  inv_parent : forall x, x ∈ stack -> x = v \/ exists p, p ∈ visited /\ child_of adj p x }.

Lemma dfs_inv_init : dfs_inv [v] ∅ 0%N.
Proof.
  constructor.
  - rewrite size_empty. reflexivity.
  - intros x [Hx | Hx]; [set_solver |]. apply list_elem_of_singleton in Hx as ->.
    constructor.
  - apply NoDup_singleton.
  - set_solver.
  - set_solver.
  - right. apply list_elem_of_singleton. reflexivity.
  - intros x ->%list_elem_of_singleton. left. reflexivity.
Qed.

Definition stack_after (next : VerifyingKey) (rest : list VerifyingKey)
    (visited : gset VerifyingKey) : list VerifyingKey :=
  match adj !! next with
  | Some children => push_children ({[next]} ∪ visited) voters children rest
  | None => rest
  end.

Lemma elem_of_stack_after next rest visited x :
  x ∈ stack_after next rest visited <->
  (child_of adj next x /\ (x ∉ {[next]} ∪ visited) /\ (x ∉ voters)) \/ x ∈ rest.
Proof.
  unfold stack_after, child_of. destruct (adj !! next) as [ch |] eqn:Hch.
  - rewrite push_children_eq, elem_of_app, elem_of_reverse, list_elem_of_filter.
    split.
    + intros [[[H1 H2] H3] | H]; [left | right; exact H].
      split; [exists ch; split; [reflexivity | exact H3] | split; assumption].
    + intros [((l & Hl & H1) & H2 & H3) | H]; [left | right; exact H].
      injection Hl as <-. split; [split; assumption | exact H1].
  - split; [auto | intros [((l & ? & _) & _) | H]; [discriminate | exact H]].
Qed.

Lemma dfs_inv_step next rest visited acc :
  dfs_inv (next :: rest) visited acc ->
  dfs_inv (stack_after next rest visited) ({[next]} ∪ visited) (acc + 1)%N.
Proof.
  intros [Hacc Hreach Hnd Hfresh Hclosed Hroot Hparent].
  assert (Hnext : next ∉ visited) by (apply Hfresh; left).
  apply NoDup_cons in Hnd as [Hnr Hnd].
  constructor.
  - rewrite size_union by set_solver. rewrite size_singleton, Hacc. lia.
  - intros x [Hx | Hx].
    + apply elem_of_union in Hx as [->%elem_of_singleton | Hx];
        apply Hreach; [right; apply list_elem_of_here | left; exact Hx].
    + apply elem_of_stack_after in Hx as [((l & Hl & Hxl) & _ & Hxv) | Hx].
      * eapply reaches_step; [apply Hreach; right; apply list_elem_of_here | exact Hl | exact Hxl | exact Hxv].
      * apply Hreach. right. right. exact Hx.
  - unfold stack_after. destruct (adj !! next) as [ch |] eqn:Hch; [| exact Hnd].
    rewrite push_children_eq. apply NoDup_app. split; [| split; [| exact Hnd]].
    + rewrite reverse_Permutation. apply NoDup_filter.
      eapply (proj2 (get_adj_list_spec dm)). exact Hch.
    + intros x Hx Hxr. apply elem_of_reverse, list_elem_of_filter in Hx as [[_ Hxv] Hxch].
      destruct (Hparent x (list_elem_of_further _ _ _ Hxr)) as [-> | (p & Hp & Hpx)].
      * exact (Hxv Hv).
      * assert (p = next) as -> by (eapply child_of_functional; [exact Hpx | exists ch; eauto]).
        exact (Hnext Hp).
  - intros x Hx. apply elem_of_stack_after in Hx as [(_ & Hx & _) | Hx]; [exact Hx |].
    apply not_elem_of_union. split.
    + intros ->%elem_of_singleton. exact (Hnr Hx).
    + apply Hfresh. right. exact Hx.
  - intros n c Hn Hnc Hcv. rewrite elem_of_stack_after.
    apply elem_of_union in Hn as [->%elem_of_singleton | Hn].
    + destruct (decide (c ∈ {[next]} ∪ visited)) as [Hc | Hc]; [left; exact Hc |].
      right. left. auto.
    + destruct (Hclosed n c Hn Hnc Hcv) as [Hc | Hc]; [left; set_solver |].
      apply elem_of_cons in Hc as [-> | Hc]; [left; set_solver | right; right; exact Hc].
  - destruct Hroot as [Hr | Hr]; [left; set_solver |].
    apply elem_of_cons in Hr as [-> | Hr]; [left; set_solver |].
    right. apply elem_of_stack_after. right. exact Hr.
  - intros x Hx. apply elem_of_stack_after in Hx as [(Hx & _ & _) | Hx].
    + right. exists next. split; [set_solver | exact Hx].
    + destruct (Hparent x (list_elem_of_further _ _ _ Hx)) as [Hxv | (p & Hp & Hpx)];
        [left; exact Hxv | right; exists p; split; [set_solver | exact Hpx]].
Qed.

Lemma resolve_loop_unfold fuel next rest visited acc :
  resolve_loop adj voters (S fuel) (next :: rest) visited acc =
  resolve_loop adj voters fuel (stack_after next rest visited) ({[next]} ∪ visited) (acc + 1)%N.
Proof. reflexivity. Qed.

(** When the loop ends, the accumulator is the number of nodes counted
    in the power of [v]. *)
Lemma resolve_loop_correct fuel stack visited acc r :
  dfs_inv stack visited acc ->
  resolve_loop adj voters fuel stack visited acc = Some r ->
  exists S : gset VerifyingKey,
    r = N.of_nat (size S) /\ forall x, x ∈ S <-> reaches (new dm) voters v x.
Proof.
  revert stack visited acc.
  induction fuel as [| fuel IH]; intros stack visited acc Hinv Hrun.
  - destruct stack; [| discriminate]. injection Hrun as <-.
    exists visited. split; [apply (inv_acc _ _ _ Hinv) |].
    intros x. split; [intros Hx; apply (inv_reach _ _ _ Hinv); left; exact Hx |].
    intros Hx. induction Hx as [| p ch c Hp IHp Hch Hc Hcv].
    + destruct (inv_root _ _ _ Hinv) as [H | H]; [exact H | inversion H].
    + destruct (inv_closed _ _ _ Hinv p c IHp (ex_intro _ ch (conj Hch Hc)) Hcv)
        as [H | H]; [exact H | inversion H].
  - destruct stack as [| next rest].
    + injection Hrun as <-.
      exists visited. split; [apply (inv_acc _ _ _ Hinv) |].
      intros x. split; [intros Hx; apply (inv_reach _ _ _ Hinv); left; exact Hx |].
      intros Hx. induction Hx as [| p ch c Hp IHp Hch Hc Hcv].
      * destruct (inv_root _ _ _ Hinv) as [H | H]; [exact H | inversion H].
      * destruct (inv_closed _ _ _ Hinv p c IHp (ex_intro _ ch (conj Hch Hc)) Hcv)
          as [H | H]; [exact H | inversion H].
    + rewrite resolve_loop_unfold in Hrun.
      exact (IH _ _ _ (dfs_inv_step _ _ _ _ Hinv) Hrun).
Qed.

Lemma reaches_universe x :
  reaches (new dm) voters v x -> x ∈ ({[v]} ∪ dom dm : gset VerifyingKey).
Proof.
  intros Hx. destruct Hx as [| p ch c _ Hch Hc _]; [set_solver |].
  assert (Hpc : dm !! c = Some p)
    by (apply (proj1 (get_adj_list_spec dm)); exists ch; split; assumption).
  apply elem_of_union. right. apply elem_of_dom. eauto.
Qed.

(** The loop ends once it has been given as many iterations as there
    are unvisited nodes in [{v} ∪ dom dm]. *)
Lemma resolve_loop_terminates (fuel : nat) stack visited acc :
  dfs_inv stack visited acc ->
  (size (({[v]} ∪ dom dm : gset VerifyingKey) ∖ visited) <= fuel)%nat ->
  is_Some (resolve_loop adj voters fuel stack visited acc).
Proof.
  revert stack visited acc.
  induction fuel as [| fuel IH]; intros stack visited acc Hinv Hfuel.
  - destruct stack as [| next rest]; [eexists; reflexivity |].
    exfalso.
    assert (Hin : next ∈ ({[v]} ∪ dom dm : gset VerifyingKey) ∖ visited).
    { apply elem_of_difference. split.
      - apply reaches_universe, (inv_reach _ _ _ Hinv). right. left.
      - apply (inv_fresh _ _ _ Hinv). left. }
    assert (0 < size (({[v]} ∪ dom dm : gset VerifyingKey) ∖ visited))%nat.
    { assert (Hs : {[next]} ⊆ ({[v]} ∪ dom dm : gset VerifyingKey) ∖ visited) by set_solver.
      apply subseteq_size in Hs. rewrite size_singleton in Hs. lia. }
    lia.
  - destruct stack as [| next rest]; [eexists; reflexivity |].
    rewrite resolve_loop_unfold. apply IH; [apply dfs_inv_step; exact Hinv |].
    assert (Hn1 : next ∈ ({[v]} ∪ dom dm : gset VerifyingKey))
      by (apply reaches_universe, (inv_reach _ _ _ Hinv); right; apply list_elem_of_here).
    assert (Hn2 : next ∉ visited) by (apply (inv_fresh _ _ _ Hinv); left).
    assert (Hlt : (({[v]} ∪ dom dm : gset VerifyingKey) ∖ ({[next]} ∪ visited))
                  ⊂ ({[v]} ∪ dom dm) ∖ visited) by set_solver.
    apply subset_size in Hlt. lia.
Qed.
End Dfs.

Section Weights.
Context (dm : gmap VerifyingKey VerifyingKey) (voters : gset VerifyingKey) (fuel : nat).

Local Abbreviation step := (fun (voter : VerifyingKey) (acc : option (gmap VerifyingKey N)) =>
  match acc with
  | None => None
  | Some weights =>
      match resolve_power (new dm) fuel voter voters with
      | Some power => Some (<[voter := power]> weights)
      | None => None
      end
  end).

Lemma weights_total_insert (w : gmap VerifyingKey N) k p :
  w !! k = None -> weights_total (<[k := p]> w) = (p + weights_total w)%N.
Proof.
  intros Hk. unfold weights_total. apply map_fold_insert_L; [intros; lia | exact Hk].
Qed.

Lemma weights_fold_is_Some l :
  (forall v, v ∈ l -> is_Some (resolve_power (new dm) fuel v voters)) ->
  is_Some (foldr step (Some ∅) l).
Proof.
  induction l as [| v l IH]; intros Hl; [eexists; reflexivity |].
  simpl. destruct IH as [w ->]; [intros x Hx; apply Hl; right; exact Hx |].
  destruct (Hl v ltac:(left)) as [r ->]. eexists. reflexivity.
Qed.

(** Two voters never count the same node. *)
Lemma reaches_disjoint v v' x :
  v ∈ voters -> v' ∈ voters ->
  reaches (new dm) voters v x -> reaches (new dm) voters v' x -> v = v'.
Proof.
  intros Hv Hv' Hx. revert v' Hv'. induction Hx as [| p ch c Hp IH Hch Hc Hcv];
    intros v' Hv' Hx'.
  - inversion Hx' as [| p' ch' c' _ _ _ Hv'c]; [reflexivity | exfalso; exact (Hv'c Hv)].
  - inversion Hx' as [Heq | p' ch' c' Hp' Hch' Hc' _]; [subst; exfalso; exact (Hcv Hv') |].
    assert (p' = p); [| subst p'; exact (IH v' Hv' Hp')].
    apply (child_of_functional dm p' p c); [exists ch'; split; assumption | exists ch; split; assumption].
Qed.

Lemma weights_fold_total l w :
  NoDup l -> (forall v, v ∈ l -> v ∈ voters) ->
  foldr step (Some ∅) l = Some w ->
  dom w = list_to_set l /\
  exists S : gset VerifyingKey,
    weights_total w = N.of_nat (size S) /\
    forall x, x ∈ S <-> exists v, v ∈ l /\ reaches (new dm) voters v x.
Proof.
  revert w. induction l as [| v l IH]; intros w Hnd Hl Hrun.
  - injection Hrun as <-. split; [apply dom_empty_L |].
    exists ∅. split; [reflexivity |]. intros x. split; [set_solver |].
    intros (v & Hv & _). inversion Hv.
  - apply NoDup_cons in Hnd as [Hvl Hnd]. simpl in Hrun.
    destruct (foldr step (Some ∅) l) as [w' |] eqn:Hw'; [| discriminate].
    destruct (resolve_power (new dm) fuel v voters) as [r |] eqn:Hr; [| discriminate].
    injection Hrun as <-.
    destruct (IH w' Hnd (fun x Hx => Hl x (list_elem_of_further _ _ _ Hx)) eq_refl)
      as [Hdom (S' & Htot & HS')].
    assert (Hvv : v ∈ voters) by (apply Hl; apply list_elem_of_here).
    destruct (resolve_loop_correct dm voters v Hvv fuel _ _ _ r (dfs_inv_init dm voters v Hvv) Hr)
      as (Sv & Hrv & HSv).
    assert (Hfresh : w' !! v = None).
    { apply not_elem_of_dom. rewrite Hdom. rewrite elem_of_list_to_set. exact Hvl. }
    split; [rewrite dom_insert_L, Hdom; reflexivity |].
    exists (Sv ∪ S'). split.
    + rewrite weights_total_insert by exact Hfresh. rewrite size_union.
      * rewrite Hrv, Htot. lia.
      * intros x Hx1 Hx2. apply HSv in Hx1. apply HS' in Hx2 as (v' & Hv'l & Hx2).
        assert (v = v') as <- by
          (apply (reaches_disjoint v v' x Hvv (Hl v' (list_elem_of_further _ _ _ Hv'l)) Hx1 Hx2)).
        exact (Hvl Hv'l).
    + intros x. rewrite elem_of_union, HSv, HS'. split.
      * intros [Hx | (v' & Hv' & Hx)]; [exists v; split; [apply list_elem_of_here | exact Hx] |].
        exists v'. split; [apply list_elem_of_further; exact Hv' | exact Hx].
      * intros (v' & Hv' & Hx). apply elem_of_cons in Hv' as [-> | Hv']; [left; exact Hx |].
        right. exists v'. split; assumption.
Qed.
End Weights.

(** C9. GenerateWeights terminates on every delegation graph, cyclic or not,
    and every voter set: with [1 + |delegation_map|] iterations allowed
    per voter, no traversal runs out, so a weight map is returned. *)
Theorem generate_weights_terminates (dm : gmap VerifyingKey VerifyingKey)
    (voters : gset VerifyingKey) :
  exists weights, generate_weights (new dm) (S (size dm)) voters = Some weights.
Proof.
  apply (weights_fold_is_Some dm voters (S (size dm)) (elements voters)).
  intros v Hv. apply elem_of_elements in Hv.
  apply (resolve_loop_terminates dm voters v Hv); [apply dfs_inv_init; exact Hv |].
  rewrite difference_empty_L, size_union_alt, size_singleton.
  assert (Hs : (size (dom dm ∖ {[v]}) <= size (dom dm : gset VerifyingKey))%nat)
    by (apply subseteq_size; set_solver).
  rewrite size_dom in Hs. lia.
Qed.

(** C8. Delegation weights total: when every delegator and representative is
    a census member and the voters are census members, the weights sum to
    at most the census size, with equality exactly when every census
    member is counted for some voter (reached from it through the inverse
    delegation graph without entering another voter). *)
Theorem generate_weights_total (dm : gmap VerifyingKey VerifyingKey)
    (census voters : gset VerifyingKey) (fuel : nat) (weights : gmap VerifyingKey N) :
  (forall d r, dm !! d = Some r -> d ∈ census /\ r ∈ census) ->
  voters ⊆ census ->
  generate_weights (new dm) fuel voters = Some weights ->
  (weights_total weights <= N.of_nat (size census))%N /\
  (weights_total weights = N.of_nat (size census) <->
   forall x, x ∈ census -> exists v, v ∈ voters /\ reaches (new dm) voters v x).
Proof.
  intros Hdm Hvc Hrun.
  destruct (weights_fold_total dm voters fuel (elements voters) weights (NoDup_elements voters)
              (fun v Hv => proj1 (elem_of_elements voters v) Hv) Hrun) as [_ (S & Htot & HS)].
  assert (HS' : forall x, x ∈ S <-> exists v, v ∈ voters /\ reaches (new dm) voters v x).
  { intros x. rewrite HS. split; intros (v & Hv & Hx); exists v; split; try exact Hx;
      apply elem_of_elements; exact Hv. }
  assert (Hsub : S ⊆ census).
  { intros x (v & Hv & Hx)%HS'.
    destruct Hx as [| p ch c _ Hch Hc _]; [apply Hvc; exact Hv |].
    assert (Hpc : dm !! c = Some p)
      by (apply (proj1 (get_adj_list_spec dm)); exists ch; split; assumption).
    exact (proj1 (Hdm c p Hpc)). }
  rewrite Htot. split.
  - apply subseteq_size in Hsub. lia.
  - split.
    + intros Hsize x Hx. apply HS'.
      assert (Heq : S ≡ census) by (apply set_subseteq_size_equiv; [exact Hsub | lia]).
      apply Heq. exact Hx.
    + intros Hall. assert (Heq : S ≡ census).
      { split; [apply Hsub | intros Hx; apply HS'; apply Hall; exact Hx]. }
      apply leibniz_equiv in Heq. subst. reflexivity.
Qed.

Lemma generate_weights_total_witness :
  generate_weights (new test_map) 6 test_voters = Some test_weights /\
  (weights_total test_weights <= N.of_nat (size test_census))%N /\
  (weights_total test_weights = N.of_nat (size test_census) <->
   forall x, x ∈ test_census ->
     exists v, v ∈ test_voters /\ reaches (new test_map) test_voters v x).
Proof.
  assert (Hrun : generate_weights (new test_map) 6 test_voters = Some test_weights)
    by (vm_compute; reflexivity).
  split; [exact Hrun |].
  apply (generate_weights_total test_map test_census test_voters 6 test_weights); [| | exact Hrun].
  - intros d r Hd. unfold test_map in Hd. unfold test_census.
    repeat (apply lookup_insert_Some in Hd as [[<- <-] | [_ Hd]]; [set_solver |]).
    apply lookup_singleton_Some in Hd as [<- <-]. set_solver.
  - unfold test_voters, test_census. set_solver.
Defined.

(** [test_mixed_cast_weight] of delegations.rs: with 0 -> 3, 1 -> 2,
    2 -> 3, 4 -> 5 and voters 3 and 5, the weights are 4 and 2. *)
Example test_mixed_cast_weight :
  generate_weights (new test_map) 6 test_voters = Some test_weights.
Proof. vm_compute. reflexivity. Qed.

(** [test_mixed_cast_weight_extra]: when 1 votes too it keeps its own
    power, so the weights are 3 (for 3), 2 (for 5) and 1 (for 1). *)
Example test_mixed_cast_weight_extra :
  generate_weights (new test_map) 6 (list_to_set [3; 5; 1])
  = Some (<[1 := 1%N]> (<[3 := 3%N]> {[5 := 2%N]})).
Proof. vm_compute. reflexivity. Qed.

(** [test_mixed_cast_weight_cyclic]: on the cycle 0 -> 1 -> 2 -> 3 -> 0
    with voters 0 and 1, the weights are 3 and 1. *)
Example test_mixed_cast_weight_cyclic :
  generate_weights (new (<[3 := 0]> (<[2 := 3]> (<[1 := 2]> {[0 := 1]})))) 5
    (list_to_set [0; 1])
  = Some (<[0 := 3%N]> {[1 := 1%N]}).
Proof. vm_compute. reflexivity. Qed.

End DelegationFacts.

(* ------------------------------------------------------------------ *)
(** ** Chain store: further facts *)
(* ------------------------------------------------------------------ *)

Module ChainExtra.

Section Store.
Context (E : Env).

Lemma strip_loop_ok n index wtxn pool wtxn' pool' :
  strip_loop E n index wtxn pool = (Ok wtxn', pool') ->
  (forall i, (index <= i < index + N.of_nat n)%N -> wtxn' !! i = None) /\
  (forall i, (i < index \/ index + N.of_nat n <= i)%N -> wtxn' !! i = wtxn !! i).
Proof.
  revert index wtxn pool. induction n as [| n IH]; intros index wtxn pool Hrun.
  - injection Hrun as <- _. split; intros i Hi; [lia | reflexivity].
  - cbn [strip_loop] in Hrun.
    destruct (fails E (OpGet index)); [discriminate |].
    destruct (wtxn !! index) as [block |] eqn:Hb.
    + destruct (fails E (OpDelete index)); [discriminate |].
      destruct (IH _ _ _ Hrun) as [Hin Hout]. split.
      * intros i Hi. destruct (decide (i = index)) as [-> | Hne].
        -- rewrite Hout by lia. apply lookup_delete_eq.
        -- apply Hin. lia.
      * intros i Hi. rewrite Hout by lia. apply lookup_delete_ne. lia.
    + destruct (IH _ _ _ Hrun) as [Hin Hout]. split.
      * intros i Hi. destruct (decide (i = index)) as [-> | Hne].
        -- rewrite Hout by lia. exact Hb.
        -- apply Hin. lia.
      * intros i Hi. apply Hout. lia.
Qed.

Lemma put_loop_ok bs index wtxn wtxn' idx :
  put_loop E bs index wtxn = Ok (wtxn', idx) ->
  idx = (index + N.of_nat (length bs))%N /\
  (forall k, (k < length bs)%nat -> wtxn' !! (index + N.of_nat k)%N = bs !! k) /\
  (forall i, (i < index \/ index + N.of_nat (length bs) <= i)%N -> wtxn' !! i = wtxn !! i).
Proof.
  revert index wtxn. induction bs as [| b bs IH]; intros index wtxn Hrun.
  - injection Hrun as <- <-. split; [simpl; lia |].
    split; [intros k Hk; simpl in Hk; lia | reflexivity].
  - cbn [put_loop] in Hrun. destruct (fails E (OpPut index)); [discriminate |].
    destruct (IH _ _ Hrun) as (Hidx & Hk & Hout). cbn [length].
    split; [lia |]. split.
    + intros [| k] Hk'.
      * replace (index + N.of_nat 0)%N with index by lia.
        rewrite Hout by lia. apply lookup_insert_eq.
      * simpl. rewrite <- (Hk k) by lia. f_equal. lia.
    + intros i Hi. rewrite Hout by lia. apply lookup_insert_ne. lia.
Qed.

Lemma try_update_longest_ok_inv st f bs idx st' :
  try_update_longest E st f bs = (Ok idx, st') ->
  exists b0 rest fb,
    bs = b0 :: rest /\ chain_db st !! f = Some fb /\ hash E b0 = hash E fb /\
    is_valid_chain E bs = true /\
    idx = (f + N.of_nat (length bs))%N /\ height st' = (idx - 1)%N /\
    (forall k, (k < length bs)%nat -> chain_db st' !! (f + N.of_nat k)%N = bs !! k) /\
    (forall i, (i < f)%N -> chain_db st' !! i = chain_db st !! i) /\
    (forall i, (f + N.of_nat (length bs) <= i)%N -> (height st <= i)%N ->
               chain_db st' !! i = chain_db st !! i) /\
    hash_indexes st' = hash_indexes st.
Proof.
  unfold try_update_longest.
  destruct bs as [| b0 rest]; [discriminate |].
  destruct (get_block E st f) as [fb | e0 |] eqn:Hfb; [| discriminate | discriminate].
  destruct (negb (bool_decide (hash E b0 = hash E fb)) || negb (is_valid_chain E (b0 :: rest)))
    eqn:Hchk; [discriminate |].
  destruct (fails E OpWriteTxn); [discriminate |].
  destruct (strip_loop E _ _ _ _) as [r pool] eqn:Hstrip.
  destruct r as [wtxn | e1 |]; [| discriminate | discriminate].
  destruct (put_loop E _ _ _) as [[wtxn' index] | e2 |] eqn:Hput; [| discriminate | discriminate].
  destruct (fails E OpCommit); [discriminate |].
  intros [= <- <-].
  apply orb_false_iff in Hchk as [H1 H2]. apply negb_false_iff in H1, H2.
  apply bool_decide_eq_true_1 in H1.
  unfold get_block in Hfb. destruct (fails E OpReadTxn), (fails E (OpGet f)); try discriminate.
  destruct (chain_db st !! f) as [fb' |] eqn:Hdb; [injection Hfb as <- | discriminate].
  destruct (strip_loop_ok _ _ _ _ _ _ Hstrip) as [Hin Hout].
  rewrite N2Nat.id in Hin, Hout.
  destruct (put_loop_ok _ _ _ _ _ Hput) as (Hidx & Hk & Hpout).
  exists b0, rest, fb'. cbn [chain_db height hash_indexes].
  split; [reflexivity |]. split; [first [exact Hdb | reflexivity] |]. split; [exact H1 |]. split; [exact H2 |].
  split; [exact Hidx |]. split; [reflexivity |]. split; [exact Hk |]. split; [| split; [| reflexivity]].
  - intros i Hi. rewrite Hpout by lia. apply Hout. lia.
  - intros i Hi1 Hi2. rewrite Hpout by lia. apply Hout. lia.
Qed.

Lemma blocks_from_loop_spec st n index :
  (forall op, fails E op = false) ->
  (forall i, (index <= i < index + N.of_nat n)%N -> is_Some (chain_db st !! i)) ->
  exists bs, blocks_from_loop E st n index = Ok bs /\ length bs = n /\
    (forall k, (k < n)%nat -> bs !! k = chain_db st !! (index + N.of_nat k)%N).
Proof.
  intros Hok. revert index. induction n as [| n IH]; intros index Hi.
  - exists []. split; [reflexivity |]. split; [reflexivity |]. intros k Hk; lia.
  - destruct (Hi index ltac:(lia)) as [b Hb].
    destruct (IH (index + 1)%N) as (bs & Hbs & Hlen & Hk); [intros i Hr; apply Hi; lia |].
    exists (b :: bs). cbn [blocks_from_loop]. rewrite Hok, Hb, Hbs.
    split; [reflexivity |]. split; [simpl; lia |].
    intros [| k] Hk'; simpl.
    + replace (index + N.of_nat 0)%N with index by lia. symmetry. exact Hb.
    + rewrite (Hk k) by lia. f_equal. lia.
Qed.

Lemma blocks_from_loop_missing st n index i :
  (forall op, fails E op = false) ->
  (index <= i < index + N.of_nat n)%N -> chain_db st !! i = None ->
  (forall j, (index <= j < i)%N -> is_Some (chain_db st !! j)) ->
  blocks_from_loop E st n index = Err (BlockNotFound i).
Proof.
  intros Hok. revert index. induction n as [| n IH]; intros index Hr Hi Hbefore; [lia |].
  cbn [blocks_from_loop]. rewrite Hok.
  destruct (decide (index = i)) as [-> | Hne]; [rewrite Hi; reflexivity |].
  destruct (Hbefore index ltac:(lia)) as [b Hb]. rewrite Hb.
  rewrite (IH (index + 1)%N); [reflexivity | lia | exact Hi |].
  intros j Hj. apply Hbefore. lia.
Qed.

Lemma windows_linked_iff bs :
  windows_linked E bs = true <->
  forall i b1 b2, bs !! i = Some b1 -> bs !! S i = Some b2 -> hash E b1 = previous_hash b2.
Proof.
  induction bs as [| b1 tl IH].
  - split; [intros _ i x y Hx; discriminate Hx | reflexivity].
  - destruct tl as [| b2 rest].
    + split; [| reflexivity]. intros _ [| i] x y _ Hy; simpl in Hy; discriminate Hy.
    + change (windows_linked E (b1 :: b2 :: rest))
        with (bool_decide (hash E b1 = previous_hash b2) && windows_linked E (b2 :: rest)).
      rewrite andb_true_iff, bool_decide_eq_true, IH. split.
      * intros [Hh Hrest] [| i] x y Hx Hy.
        -- injection Hx as <-. injection Hy as <-. exact Hh.
        -- exact (Hrest i x y Hx Hy).
      * intros Hall. split; [exact (Hall 0%nat b1 b2 eq_refl eq_refl) |].
        intros i x y Hx Hy. exact (Hall (S i) x y Hx Hy).
Qed.

Lemma is_valid_chain_windows bs : is_valid_chain E bs = windows_linked E bs.
Proof. destruct bs as [| b [| b' rest]]; reflexivity. Qed.

Lemma get_block_reliable st i :
  (forall op, fails E op = false) ->
  get_block E st i = match chain_db st !! i with Some b => Ok b | None => Err (BlockNotFound i) end.
Proof. intros Hok. unfold get_block. rewrite !Hok. reflexivity. Qed.

Lemma blocks_from_spec st start_index :
  (forall op, fails E op = false) ->
  (forall i, (start_index <= i <= height st)%N -> is_Some (chain_db st !! i)) ->
  exists bs,
    blocks_from E st start_index = Ok bs /\
    length bs = N.to_nat (height st + 1 - start_index) /\
    (forall k, (k < length bs)%nat -> bs !! k = chain_db st !! (start_index + N.of_nat k)%N).
Proof.
  intros Hok Hpresent. unfold blocks_from. rewrite Hok.
  destruct (blocks_from_loop_spec st (N.to_nat (height st + 1 - start_index)) start_index Hok)
    as (bs & Hbs & Hlen & Hk).
  { intros i Hi. rewrite N2Nat.id in Hi. apply Hpresent. lia. }
  exists bs. split; [exact Hbs |]. split; [exact Hlen |]. intros k Hk'. apply Hk. lia.
Qed.

End Store.

(** [blocks_from(start_index)] on a reliable store holding the blocks at
    [start_index ..= height] returns exactly those blocks, in order. *)
Theorem blocks_from_contents (E : Env) (st : Blockchain) (start_index : N) :
  (forall op, fails E op = false) ->
  (forall i, (start_index <= i <= height st)%N -> is_Some (chain_db st !! i)) ->
  exists bs,
    blocks_from E st start_index = Ok bs /\
    length bs = N.to_nat (height st + 1 - start_index) /\
    (forall k, (k < length bs)%nat -> bs !! k = chain_db st !! (start_index + N.of_nat k)%N).
Proof. apply blocks_from_spec. Qed.

(** [blocks_from(start_index)] on a reliable store stops at the first
    index of [start_index ..= height] that holds no block, with
    [BlockNotFound] of that index. *)
Theorem blocks_from_first_missing (E : Env) (st : Blockchain) (start_index i : N) :
  (forall op, fails E op = false) ->
  (start_index <= i <= height st)%N -> chain_db st !! i = None ->
  (forall j, (start_index <= j < i)%N -> is_Some (chain_db st !! j)) ->
  blocks_from E st start_index = Err (BlockNotFound i).
Proof.
  intros Hok Hr Hi Hbefore. unfold blocks_from. rewrite Hok.
  apply blocks_from_loop_missing; [exact Hok | rewrite N2Nat.id; lia | exact Hi | exact Hbefore].
Qed.

(** [blocks_from(1)] is [blocks()] followed by the head: on a reliable
    store holding blocks at [1 ..= height], [blocks_from(1)] returns the
    snapshot of [blocks()] with the block at [height] appended. *)
Theorem blocks_from_one_adds_head (E : Env) (st : Blockchain) :
  (forall op, fails E op = false) ->
  (1 <= height st)%N ->
  (forall i, (1 <= i <= height st)%N -> is_Some (chain_db st !! i)) ->
  exists bs head,
    blocks E st = Ok bs /\ chain_db st !! height st = Some head /\
    blocks_from E st 1 = Ok (bs ++ [head]).
Proof.
  intros Hok Hh Hpresent.
  destruct (ChainFacts.blocks_loop_spec E st (N.to_nat (height st - 1)) 1 Hok) as (bs & Hbs & Hlen & Hk).
  { intros i Hi. rewrite N2Nat.id in Hi. apply Hpresent. lia. }
  destruct (Hpresent (height st) ltac:(lia)) as [head Hhead].
  destruct (blocks_from_spec E st 1 Hok Hpresent) as (bs' & Hbs' & Hlen' & Hk').
  exists bs, head. split; [exact Hbs |]. split; [exact Hhead |].
  rewrite Hbs'. f_equal. apply list_eq. intros k.
  destruct (decide (k < length bs')%nat) as [Hlt | Hge].
  - rewrite Hk' by exact Hlt.
    destruct (decide (k < length bs)%nat) as [Hlt2 | Hge2].
    + rewrite lookup_app_l by exact Hlt2. rewrite Hk by lia. reflexivity.
    + rewrite lookup_app_r by lia.
      replace (k - length bs)%nat with 0%nat by lia. simpl.
      replace (1 + N.of_nat k)%N with (height st) by lia. exact Hhead.
  - rewrite (proj2 (lookup_ge_None _ _)) by lia.
    symmetry. apply lookup_ge_None. rewrite length_app. simpl. lia.
Qed.

(** [get_block_from_hash] on a reliable store whose hash index agrees
    with the store: a block it returns has the requested hash; a hash
    some stored block has is found; a hash no stored block has gives
    [BlockNotFound(0)]. *)
Theorem get_block_from_hash_agrees (E : Env) (st : Blockchain) (h : Z) :
  (forall op, fails E op = false) -> hash_index_agrees E st ->
  (forall b, get_block_from_hash E st h = Ok b -> hash E b = h) /\
  ((exists i b, chain_db st !! i = Some b /\ hash E b = h) ->
   exists b, get_block_from_hash E st h = Ok b) /\
  ((forall i b, chain_db st !! i = Some b -> hash E b <> h) ->
   get_block_from_hash E st h = Err (BlockNotFound 0)).
Proof.
  intros Hok [Hto Hfrom]. unfold get_block_from_hash. split; [| split].
  - intros b. destruct (hash_indexes st !! h) as [i |] eqn:Hi; [| discriminate].
    rewrite get_block_reliable by exact Hok.
    destruct (Hfrom h i Hi) as (b' & Hb' & Hh). rewrite Hb'. intros [= <-]. exact Hh.
  - intros (i & b & Hb & Hh). rewrite <- Hh, (Hto i b Hb).
    rewrite get_block_reliable by exact Hok. rewrite Hb. eexists. reflexivity.
  - intros Hnone. destruct (hash_indexes st !! h) as [i |] eqn:Hi; [| reflexivity].
    destruct (Hfrom h i Hi) as (b' & Hb' & Hh). exfalso. exact (Hnone i b' Hb' Hh).
Qed.

Lemma iter_take_from (E : Env) (st : Blockchain) n m :
  (forall op, fails E op = false) ->
  iter_take E n (N.of_nat m, st) = map (fun i => chain_db st !! N.of_nat (S i)) (seq m n).
Proof.
  intros Hok. revert m. induction n as [| n IH]; intros m; [reflexivity |].
  cbn [iter_take seq map]. unfold iter_next. cbn [fst snd].
  replace (N.of_nat m + 1)%N with (N.of_nat (S m)) by lia.
  rewrite IH. f_equal. unfold try_get_block. rewrite get_block_reliable by exact Hok.
  destruct (chain_db st !! N.of_nat (S m)); reflexivity.
Qed.

(** [Blockchain::iter] never yields the genesis block at index 1: on a
    reliable store its successive items are the lookups at indices
    [2, 3, ...]. *)
Theorem iter_skips_genesis (E : Env) (st : Blockchain) (n : nat) :
  (forall op, fails E op = false) ->
  iter_take E n (iter st) = map (fun i => chain_db st !! N.of_nat (S i)) (seq 1 n).
Proof. intros Hok. exact (iter_take_from E st n 1 Hok). Qed.

(** [append] either succeeds, storing the block at [height + 1] after
    checking that it links to the head, and incrementing the height
    while leaving the pool and the hash index as they were; or it
    returns an error and changes nothing.  It never panics. *)
Theorem append_result (E : Env) (st : Blockchain) (block : Block) r st' :
  append E st block = (r, st') ->
  (r = Ok tt /\
   (exists head, chain_db st !! height st = Some head /\ previous_hash block = hash E head) /\
   chain_db st' = <[(height st + 1)%N := block]> (chain_db st) /\
   height st' = (height st + 1)%N /\ ballot_pool st' = ballot_pool st /\
   hash_indexes st' = hash_indexes st)
  \/ ((exists e, r = Err e) /\ st' = st).
Proof.
  unfold append, get_block.
  destruct (fails E OpReadTxn); [intros [= <- <-]; right; split; [eexists; reflexivity | reflexivity] |].
  destruct (fails E (OpGet (height st)));
    [intros [= <- <-]; right; split; [eexists; reflexivity | reflexivity] |].
  destruct (chain_db st !! height st) as [head |] eqn:Hh;
    [| intros [= <- <-]; right; split; [eexists; reflexivity | reflexivity]].
  destruct (negb (is_valid E block head)) eqn:Hv;
    [intros [= <- <-]; right; split; [eexists; reflexivity | reflexivity] |].
  destruct (fails E OpWriteTxn); [intros [= <- <-]; right; split; [eexists; reflexivity | reflexivity] |].
  destruct (fails E (OpPut _)); [intros [= <- <-]; right; split; [eexists; reflexivity | reflexivity] |].
  destruct (fails E OpCommit); [intros [= <- <-]; right; split; [eexists; reflexivity | reflexivity] |].
  intros [= <- <-]. left. split; [reflexivity |]. split.
  - exists head. split; [reflexivity |]. apply negb_false_iff in Hv. unfold is_valid in Hv.
    apply bool_decide_eq_true_1 in Hv. exact Hv.
  - cbn [chain_db height ballot_pool hash_indexes]. split; [reflexivity |].
    split; [reflexivity |]. split; reflexivity.
Qed.

(** [is_valid_chain] holds exactly when every block of the list is
    followed by a block whose [previous_hash] is its hash. *)
Theorem is_valid_chain_linked (E : Env) (bs : list Block) :
  is_valid_chain E bs = true <->
  forall i b1 b2, bs !! i = Some b1 -> bs !! S i = Some b2 -> hash E b1 = previous_hash b2.
Proof. rewrite is_valid_chain_windows. apply windows_linked_iff. Qed.

(** A block built by [Block::new] on the last block of a valid chain is
    valid on it ([Block::is_valid]), and extends the chain to a valid
    chain. *)
Theorem block_new_extends_valid_chain (E : Env) (bs : list Block) (prev : Block)
    (ts : Z) (key : VerifyingKey) (pow : list Z * list Z) (data : list (Signed Ballot))
    (b : Block) :
  is_valid_chain E bs = true -> last bs = Some prev ->
  block_new E ts key pow prev data = Ok b ->
  is_valid E b prev = true /\ is_valid_chain E (bs ++ [b]) = true.
Proof.
  intros Hbs Hlast [= <-]. split; [apply bool_decide_eq_true_2; reflexivity |].
  rewrite is_valid_chain_windows in Hbs |- *. rewrite windows_linked_iff in Hbs |- *.
  intros i x y Hx Hy.
  assert (Hlen : (S i < length bs + 1)%nat)
    by (apply lookup_lt_Some in Hy; rewrite length_app in Hy; simpl in Hy; lia).
  destruct (decide (S i < length bs)%nat) as [Hlt | Hge].
  - rewrite lookup_app_l in Hx by lia. rewrite lookup_app_l in Hy by lia.
    exact (Hbs i x y Hx Hy).
  - rewrite lookup_app_l in Hx by lia. rewrite lookup_app_r in Hy by lia.
    replace (S i - length bs)%nat with 0%nat in Hy by lia. injection Hy as <-.
    rewrite last_lookup in Hlast. replace (pred (length bs)) with i in Hlast by lia.
    rewrite Hx in Hlast. injection Hlast as ->. reflexivity.
Qed.

(** A successful [try_update_longest(fork_index, blocks)] has checked
    that the first new block has the hash of the block stored at
    [fork_index] and that the new blocks form a valid chain; it returns
    [fork_index + len], sets the height to [fork_index + len - 1], stores
    the new blocks from [fork_index] on, keeps the blocks below
    [fork_index] and those at or above both [fork_index + len] and the
    old height, and leaves the hash index unchanged. *)
Theorem try_update_longest_success (E : Env) (st : Blockchain) (fork_index : N)
    (bs : list Block) (idx : N) (st' : Blockchain) :
  try_update_longest E st fork_index bs = (Ok idx, st') ->
  exists b0 rest fb,
    bs = b0 :: rest /\ chain_db st !! fork_index = Some fb /\ hash E b0 = hash E fb /\
    is_valid_chain E bs = true /\
    idx = (fork_index + N.of_nat (length bs))%N /\ height st' = (idx - 1)%N /\
    (forall k, (k < length bs)%nat -> chain_db st' !! (fork_index + N.of_nat k)%N = bs !! k) /\
    (forall i, (i < fork_index)%N -> chain_db st' !! i = chain_db st !! i) /\
    (forall i, (fork_index + N.of_nat (length bs) <= i)%N -> (height st <= i)%N ->
               chain_db st' !! i = chain_db st !! i) /\
    hash_indexes st' = hash_indexes st.
Proof. apply try_update_longest_ok_inv. Qed.

(** A successful reorg to a chain that ends below the old height lowers
    the height but leaves the old head stored at the old height: the
    stripping range [fork_index .. height] stops before it. *)
Theorem try_update_longest_keeps_stale_head (E : Env) (st : Blockchain) (fork_index : N)
    (bs : list Block) (idx : N) (st' : Blockchain) :
  try_update_longest E st fork_index bs = (Ok idx, st') ->
  (fork_index + N.of_nat (length bs) <= height st)%N ->
  (height st' < height st)%N /\ chain_db st' !! height st = chain_db st !! height st.
Proof.
  intros Hrun Hshort.
  destruct (try_update_longest_ok_inv E st fork_index bs idx st' Hrun)
    as (b0 & rest & fb & -> & _ & _ & _ & Hidx & Hh & _ & _ & Hhigh & _).
  cbn [length] in *. split; [lia |]. apply Hhigh; lia.
Qed.

(** [pool_ballot] on a reliable store whose pool holds at least one
    ballot: the new ballot is pushed, the last [BLOCK_SIZE] = 2 ballots
    of the pool are split off into a ballots block linked to the head,
    and that block is appended at [height + 1]. *)
Theorem pool_ballot_seals_block (E : Env) (st : Blockchain) (ballot : Signed Ballot)
    (ts : Z) (key : VerifyingKey) (pow : list Z * list Z) (head : Block) :
  (forall op, fails E op = false) ->
  chain_db st !! height st = Some head ->
  (1 <= length (ballot_pool st))%nat ->
  exists block,
    pool_ballot E st ballot ts key pow =
      (Ok tt, {| chain_db := <[(height st + 1)%N := block]> (chain_db st);
                 hash_indexes := hash_indexes st; height := (height st + 1)%N;
                 ballot_pool := take (length (ballot_pool st) - 1) (ballot_pool st) |}) /\
    get_ballots block = Some (drop (length (ballot_pool st) - 1) (ballot_pool st) ++ [ballot]) /\
    previous_hash block = hash E head.
Proof.
  intros Hok Hh Hlen.
  assert (Hle : (BLOCK_SIZE <=? length (ballot_pool st ++ [ballot]))%nat = true)
    by (apply Nat.leb_le; unfold BLOCK_SIZE; rewrite length_app; simpl; lia).
  assert (Hn : (length (ballot_pool st ++ [ballot]) - BLOCK_SIZE = length (ballot_pool st) - 1)%nat)
    by (unfold BLOCK_SIZE; rewrite length_app; simpl; lia).
  unfold pool_ballot. rewrite Hle, Hn.
  rewrite get_block_reliable by exact Hok. cbn [chain_db height]. rewrite Hh.
  unfold block_new, append. rewrite get_block_reliable by exact Hok.
  cbn [chain_db height]. rewrite Hh. unfold is_valid.
  rewrite bool_decide_eq_true_2 by reflexivity. rewrite !Hok. cbn [negb].
  cbn [hash_indexes ballot_pool]. rewrite take_app_le by lia.
  eexists. split; [reflexivity |]. cbn [get_ballots block_data previous_hash].
  split; [| reflexivity]. f_equal. apply drop_app_le. lia.
Qed.

(** When the append inside [pool_ballot] fails (here: the commit
    fails), [pool_ballot] still returns [Ok]: the last two ballots of the
    pool are removed from it and stored nowhere. *)
Theorem pool_ballot_loses_ballots_on_failed_append (E : Env) (st : Blockchain)
    (ballot : Signed Ballot) (ts : Z) (key : VerifyingKey) (pow : list Z * list Z)
    (head : Block) :
  fails E OpReadTxn = false -> fails E (OpGet (height st)) = false ->
  fails E OpCommit = true ->
  chain_db st !! height st = Some head ->
  (1 <= length (ballot_pool st))%nat ->
  pool_ballot E st ballot ts key pow =
    (Ok tt, {| chain_db := chain_db st; hash_indexes := hash_indexes st;
               height := height st;
               ballot_pool := take (length (ballot_pool st) - 1) (ballot_pool st) |}).
Proof.
  intros Hr Hg Hc Hh Hlen.
  assert (Hle : (BLOCK_SIZE <=? length (ballot_pool st ++ [ballot]))%nat = true)
    by (apply Nat.leb_le; unfold BLOCK_SIZE; rewrite length_app; simpl; lia).
  assert (Hn : (length (ballot_pool st ++ [ballot]) - BLOCK_SIZE = length (ballot_pool st) - 1)%nat)
    by (unfold BLOCK_SIZE; rewrite length_app; simpl; lia).
  unfold pool_ballot. rewrite Hle, Hn.
  unfold get_block. cbn [chain_db height]. rewrite Hr, Hg, Hh.
  unfold block_new, append, get_block. cbn [chain_db height]. rewrite Hr, Hg, Hh.
  unfold is_valid. rewrite bool_decide_eq_true_2 by reflexivity. cbn [negb].
  rewrite take_app_le by lia.
  rewrite Hc. repeat match goal with |- context [fails E ?op] => destruct (fails E op) end;
    reflexivity.
Qed.

(** [Block::hash] covers the timestamp, the previous hash and the
    ballots only: blocks that agree on these have the same hash whatever
    their signatory, signature, nonce, or genesis/seal payload. *)
Theorem hash_ignores_signature (E : Env) (b b' : Block) :
  block_timestamp b = block_timestamp b' -> previous_hash b = previous_hash b' ->
  get_ballots b = get_ballots b' -> hash E b = hash E b'.
Proof.
  intros Ht Hp Hb. unfold hash. rewrite Ht, Hp. unfold get_ballots in Hb.
  destruct (block_data b), (block_data b'); congruence.
Qed.

End ChainExtra.

(* ------------------------------------------------------------------ *)
(** ** Delegation resolver: further facts *)
(* ------------------------------------------------------------------ *)

Module DelegationExtra.
Import DelegationFacts.

Lemma weights_fold_entries (dm : gmap VerifyingKey VerifyingKey) (voters : gset VerifyingKey)
    (fuel : nat) (l : list VerifyingKey) (w : gmap VerifyingKey N) :
  foldr (fun voter acc =>
           match acc with
           | None => None
           | Some weights =>
               match resolve_power (new dm) fuel voter voters with
               | Some power => Some (<[voter := power]> weights)
               | None => None
               end
           end) (Some ∅) l = Some w ->
  forall v k, w !! v = Some k -> v ∈ l /\ resolve_power (new dm) fuel v voters = Some k.
Proof.
  revert w. induction l as [| v' l IH]; intros w Hrun v k Hk.
  - injection Hrun as <-. rewrite lookup_empty in Hk. discriminate.
  - cbn [foldr] in Hrun.
    destruct (foldr _ (Some ∅) l) as [w' |] eqn:Hw'; [| discriminate].
    destruct (resolve_power (new dm) fuel v' voters) as [r |] eqn:Hr; [| discriminate].
    injection Hrun as <-. apply lookup_insert_Some in Hk as [[<- <-] | [_ Hk]].
    + split; [apply list_elem_of_here | exact Hr].
    + destruct (IH w' eq_refl v k Hk) as [Hv Hk']. split; [apply list_elem_of_further; exact Hv | exact Hk'].
Qed.

Lemma resolve_power_reach_set (dm : gmap VerifyingKey VerifyingKey) (voters : gset VerifyingKey)
    (v : VerifyingKey) (fuel : nat) (r : N) :
  v ∈ voters -> resolve_power (new dm) fuel v voters = Some r ->
  exists S : gset VerifyingKey, r = N.of_nat (size S) /\ v ∈ S /\
    forall x, x ∈ S <-> reaches (new dm) voters v x.
Proof.
  intros Hv Hr.
  destruct (resolve_loop_correct dm voters v Hv fuel _ _ _ r (dfs_inv_init dm voters v Hv) Hr)
    as (S & HrS & HS).
  exists S. split; [exact HrS |]. split; [apply HS; constructor | exact HS].
Qed.

(** [resolve_power(v, voters)] for a voter [v], allowed more iterations
    than there are delegations, returns the number of nodes counted for
    [v]: [v] itself and every delegator reached from it through the
    inverse delegations without entering another voter. *)
Theorem resolve_power_counts_reach (dm : gmap VerifyingKey VerifyingKey)
    (voters : gset VerifyingKey) (v : VerifyingKey) (fuel : nat) :
  v ∈ voters -> (size dm < fuel)%nat ->
  exists S : gset VerifyingKey,
    resolve_power (new dm) fuel v voters = Some (N.of_nat (size S)) /\ v ∈ S /\
    forall x, x ∈ S <-> reaches (new dm) voters v x.
Proof.
  intros Hv Hfuel.
  destruct (resolve_loop_terminates dm voters v Hv fuel [v] ∅ 0%N (dfs_inv_init dm voters v Hv))
    as [r Hr].
  { rewrite difference_empty_L, size_union_alt, size_singleton.
    assert (Hs : (size (dom dm ∖ {[v]}) <= size (dom dm : gset VerifyingKey))%nat)
      by (apply subseteq_size; set_solver).
    rewrite size_dom in Hs. lia. }
  destruct (resolve_power_reach_set dm voters v fuel r Hv Hr) as (S & -> & HvS & HS).
  exists S. split; [exact Hr |]. split; assumption.
Qed.

Lemma generate_weights_entries_aux (dm : gmap VerifyingKey VerifyingKey)
    (voters : gset VerifyingKey) (fuel : nat) (weights : gmap VerifyingKey N) :
  generate_weights (new dm) fuel voters = Some weights ->
  dom weights = voters /\
  forall v k, weights !! v = Some k ->
    v ∈ voters /\ resolve_power (new dm) fuel v voters = Some k /\
    exists S : gset VerifyingKey, k = N.of_nat (size S) /\ v ∈ S /\
      forall x, x ∈ S <-> reaches (new dm) voters v x.
Proof.
  intros Hrun.
  destruct (weights_fold_total dm voters fuel (elements voters) weights (NoDup_elements voters)
              (fun v Hv => proj1 (elem_of_elements voters v) Hv) Hrun) as [Hdom _].
  split; [rewrite Hdom; apply set_eq; intros x; rewrite elem_of_list_to_set, elem_of_elements; tauto |].
  intros v k Hk.
  destruct (weights_fold_entries dm voters fuel (elements voters) weights Hrun v k Hk) as [Hv Hr].
  apply elem_of_elements in Hv.
  split; [exact Hv |]. split; [exact Hr |].
  exact (resolve_power_reach_set dm voters v fuel k Hv Hr).
Qed.

(** [generate_weights(voters)] has an entry for every voter and no
    other; each voter's weight is the [resolve_power] of that voter, at
    least 1 (the voter counts itself), and is the number of nodes
    reached from it. *)
Theorem generate_weights_entries (dm : gmap VerifyingKey VerifyingKey)
    (voters : gset VerifyingKey) (fuel : nat) (weights : gmap VerifyingKey N) :
  generate_weights (new dm) fuel voters = Some weights ->
  dom weights = voters /\
  forall v k, weights !! v = Some k ->
    resolve_power (new dm) fuel v voters = Some k /\ (1 <= k)%N /\
    exists S : gset VerifyingKey, k = N.of_nat (size S) /\
      forall x, x ∈ S <-> reaches (new dm) voters v x.
Proof.
  intros Hrun. destruct (generate_weights_entries_aux dm voters fuel weights Hrun) as [Hdom Hk].
  split; [exact Hdom |]. intros v k Hvk.
  destruct (Hk v k Hvk) as (_ & Hr & S & -> & HvS & HS).
  split; [exact Hr |]. split; [| exists S; split; [reflexivity | exact HS]].
  assert (Hsz : (size ({[v]} : gset VerifyingKey) <= size S)%nat)
    by (apply subseteq_size; set_solver).
  rewrite size_singleton in Hsz. lia.
Qed.

(** When every delegator has cast a vote, no power is transferred:
    [generate_weights] gives every voter the weight 1, cycles or not. *)
Theorem generate_weights_all_cast (dm : gmap VerifyingKey VerifyingKey)
    (voters : gset VerifyingKey) (fuel : nat) (weights : gmap VerifyingKey N) :
  (forall d r, dm !! d = Some r -> d ∈ voters) ->
  generate_weights (new dm) fuel voters = Some weights ->
  forall v k, weights !! v = Some k -> k = 1%N.
Proof.
  intros Hall Hrun v k Hvk.
  destruct (generate_weights_entries_aux dm voters fuel weights Hrun) as [_ Hk].
  destruct (Hk v k Hvk) as (_ & _ & S & -> & HvS & HS).
  assert (HSv : S = {[v]}).
  { apply set_eq. intros x. rewrite elem_of_singleton. split.
    - intros Hx%HS. destruct Hx as [| p ch c _ Hch Hc Hcv]; [reflexivity |].
      exfalso. apply Hcv. apply (Hall c p).
      apply (proj1 (get_adj_list_spec dm)). exists ch. split; assumption.
    - intros ->. exact HvS. }
  rewrite HSv, size_singleton. reflexivity.
Qed.

(** [get_adj_list] inverts the delegation map: [c] is listed under [p]
    exactly when [c] delegates to [p], and no list repeats a delegator. *)
Theorem get_adj_list_inverts (dm : gmap VerifyingKey VerifyingKey) :
  (forall p c, (exists children, get_adj_list dm !! p = Some children /\ c ∈ children) <->
               dm !! c = Some p) /\
  (forall p children, get_adj_list dm !! p = Some children -> NoDup children).
Proof. exact (get_adj_list_spec dm). Qed.

End DelegationExtra.

(* ------------------------------------------------------------------ *)
(** ** Vote resolution: further facts *)
(* ------------------------------------------------------------------ *)

Module ResolveExtra.

Lemma collect_latest_flat (bs : list Block) acc :
  fold_left (fun acc block =>
               match get_ballots block with
               | Some ballots => fold_left retain_ballot ballots acc
               | None => acc
               end) bs acc
  = fold_left retain_ballot (chain_ballots bs) acc.
Proof.
  revert acc. induction bs as [| b bs IH]; intros acc; [reflexivity |].
  unfold chain_ballots. cbn [map concat fold_left]. rewrite fold_left_app.
  destruct (get_ballots b); apply IH.
Qed.

Lemma retain_ballot_inv acc seen sb :
  retains_latest acc seen -> retains_latest (retain_ballot acc sb) (seen ++ [sb]).
Proof.
  destruct acc as [wv vs]. intros (Hdom & Hvs & Hlat). cbn [fst snd] in *.
  assert (Hmem : forall s', s' ∈ {[signer sb]} ∪ vs <-> exists x, x ∈ seen ++ [sb] /\ signer x = s').
  { intros s'. rewrite elem_of_union, elem_of_singleton, Hvs. split.
    - intros [-> | (x & Hx & <-)].
      + exists sb. split; [apply elem_of_app; right; apply list_elem_of_here | reflexivity].
      + exists x. split; [apply elem_of_app; left; exact Hx | reflexivity].
    - intros (x & Hx & <-). apply elem_of_app in Hx as [Hx | Hx].
      + right. exists x. split; [exact Hx | reflexivity].
      + left. apply list_elem_of_singleton in Hx as ->. reflexivity. }
  assert (Hins : forall s' b, <[signer sb := data sb]> wv !! s' = Some b ->
            (forall x, x ∈ seen -> signer x = signer sb -> timestamp (data x) <= timestamp (data sb)) ->
            (exists x, x ∈ seen ++ [sb] /\ signer x = s' /\ data x = b) /\
            forall x, x ∈ seen ++ [sb] -> signer x = s' -> timestamp (data x) <= timestamp b).
  { intros s' b Hs' Hle. apply lookup_insert_Some in Hs' as [[<- <-] | [Hne Hs']].
    - split.
      + exists sb. split; [apply elem_of_app; right; apply list_elem_of_here | split; reflexivity].
      + intros x Hx Hsx. apply elem_of_app in Hx as [Hx | Hx]; [apply Hle; assumption |].
        apply list_elem_of_singleton in Hx as ->. lia.
    - destruct (Hlat s' b Hs') as [(x & Hx & Hsx & Hdx) Hmax]. split.
      + exists x. split; [apply elem_of_app; left; exact Hx | split; assumption].
      + intros y Hy Hsy. apply elem_of_app in Hy as [Hy | Hy]; [apply Hmax; assumption |].
        apply list_elem_of_singleton in Hy as ->. congruence. }
  unfold retain_ballot, retains_latest. cbn [fst snd].
  destruct (wv !! signer sb) as [cur |] eqn:Hcur.
  - destruct (Hlat _ _ Hcur) as [_ Hcmax].
    destruct (timestamp (data sb) >? timestamp cur) eqn:Hgt.
    + apply Z.gtb_lt in Hgt.
      split; [rewrite dom_insert_L, Hdom; reflexivity |]. split; [exact Hmem |].
      intros s' b Hs'. apply Hins; [exact Hs' |].
      intros x Hx Hsx. specialize (Hcmax x Hx Hsx). lia.
    + assert (Hle : timestamp (data sb) <= timestamp cur)
        by (rewrite Z.gtb_ltb in Hgt; apply Z.ltb_ge in Hgt; lia).
      assert (Hin : signer sb ∈ dom wv) by (apply elem_of_dom; eexists; exact Hcur).
      split; [rewrite Hdom in Hin |- *; apply set_eq; intros x; set_solver |].
      split; [exact Hmem |].
      intros s' b Hs'. destruct (Hlat s' b Hs') as [(x & Hx & Hsx & Hdx) Hmax]. split.
      * exists x. split; [apply elem_of_app; left; exact Hx | split; assumption].
      * intros y Hy Hsy. apply elem_of_app in Hy as [Hy | Hy]; [apply Hmax; assumption |].
        apply list_elem_of_singleton in Hy as ->. rewrite <- Hsy in Hs'.
        rewrite Hcur in Hs'. injection Hs' as <-. exact Hle.
  - split; [rewrite dom_insert_L, Hdom; reflexivity |]. split; [exact Hmem |].
    intros s' b Hs'. apply Hins; [exact Hs' |].
    intros x Hx Hsx. exfalso.
    assert (Hin : signer sb ∈ vs) by (apply Hvs; exists x; split; assumption).
    rewrite <- Hdom in Hin. apply elem_of_dom in Hin as [b' Hb']. congruence.
Qed.

Lemma fold_retain_inv l acc seen :
  retains_latest acc seen -> retains_latest (fold_left retain_ballot l acc) (seen ++ l).
Proof.
  revert acc seen. induction l as [| sb l IH]; intros acc seen Hinv.
  - rewrite app_nil_r. exact Hinv.
  - cbn [fold_left]. replace (seen ++ sb :: l) with ((seen ++ [sb]) ++ l)
      by (rewrite <- app_assoc; reflexivity).
    apply IH. apply retain_ballot_inv. exact Hinv.
Qed.

(** The extraction loop of [generate_vote_result] is latest-writer-wins
    over the blocks it walks: [voter_set] is the set of signers of their
    ballots and the domain of [weighted_votes], and each signer's entry
    is one of its ballots with the greatest timestamp among them. *)
Theorem collect_latest_retains_latest (bs : list Block) :
  dom (fst (collect_latest bs)) = snd (collect_latest bs) /\
  (forall s, s ∈ snd (collect_latest bs) <->
             exists sb, sb ∈ chain_ballots bs /\ signer sb = s) /\
  (forall s b, fst (collect_latest bs) !! s = Some b ->
     (exists sb, sb ∈ chain_ballots bs /\ signer sb = s /\ data sb = b) /\
     forall sb, sb ∈ chain_ballots bs -> signer sb = s -> timestamp (data sb) <= timestamp b).
Proof.
  assert (H : retains_latest (collect_latest bs) (chain_ballots bs)).
  { unfold collect_latest. rewrite collect_latest_flat.
    change (chain_ballots bs) with ([] ++ chain_ballots bs). apply fold_retain_inv.
    split; [reflexivity |]. split.
    - intros s. cbn [snd]. split; [set_solver | intros (sb & Hsb & _); inversion Hsb].
    - intros s b Hs. cbn [fst] in Hs. rewrite lookup_empty in Hs. discriminate. }
  exact H.
Qed.

End ResolveExtra.

(* ------------------------------------------------------------------ *)
(** ** Census: facts *)
(* ------------------------------------------------------------------ *)

Module CensusExtra.

Lemma from_vec_fold (input : list VerifyingKey) (acc : gset VerifyingKey) k :
  k ∈ fold_left (fun census_keys key => {[key]} ∪ census_keys) input acc <-> k ∈ acc \/ k ∈ input.
Proof.
  revert acc. induction input as [| key input IH]; intros acc; cbn [fold_left].
  - split; [left; assumption | intros [H | H]; [exact H | inversion H]].
  - rewrite IH, elem_of_union, elem_of_singleton, elem_of_cons. tauto.
Qed.

(** [DumbCensus::from_vec] then [contains_voter] is list membership, and
    [as_vec] of it lists the input's keys once each. *)
Theorem census_from_vec_round_trip (input : list VerifyingKey) :
  (forall k, contains_voter (from_vec input) k = true <-> k ∈ input) /\
  NoDup (as_vec (from_vec input)) /\
  (forall k, k ∈ as_vec (from_vec input) <-> k ∈ input).
Proof.
  split; [| split].
  - intros k. unfold contains_voter, from_vec. cbn [census_keys].
    rewrite bool_decide_eq_true, from_vec_fold. set_solver.
  - unfold as_vec. apply NoDup_elements.
  - intros k. unfold as_vec, from_vec. cbn [census_keys].
    rewrite elem_of_elements, from_vec_fold. set_solver.
Qed.

End CensusExtra.

(* ------------------------------------------------------------------ *)
(** ** Chain sync: facts *)
(* ------------------------------------------------------------------ *)

Module SyncExtra.

Lemma send_found_all (sf : nat -> bool) (k : nat) (f : N) (bs : list Block) (r : N) :
  (forall j, (j < length bs)%nat -> sf (k + j)%nat = false) ->
  length (fst (send_found sf k f bs r)) = length bs /\
  forall i, fst (send_found sf k f bs r) !! i = (fun b => Found f b (r - 1 - N.of_nat i)%N) <$> bs !! i.
Proof.
  revert k r. induction bs as [| b bs IH]; intros k r Hsf.
  - split; [reflexivity | intros i; reflexivity].
  - cbn [send_found]. assert (Hk : sf k = false) by (rewrite <- (Nat.add_0_r k); apply Hsf; cbn; lia).
    rewrite Hk.
    destruct (IH (S k) (r - 1)%N) as [Hlen Hi].
    { intros j Hj. rewrite <- (Hsf (S j)) by (cbn; lia). f_equal. lia. }
    destruct (send_found sf (S k) f bs (r - 1)) as [frames k'] eqn:Hrec. cbn [fst] in *.
    split; [cbn; lia |].
    intros [| i]; cbn.
    + do 2 f_equal. lia.
    + rewrite Hi. destruct (bs !! i); cbn; [do 2 f_equal; lia | reflexivity].
Qed.


Section Loops.
Context (E : Env) (info_enabled : bool).

Lemma send_loop_no_last (frames : list Frame) (height : N) (buf : list Block) (chain : Blockchain) :
  (forall f b, Decoded (Found f b 0) ∉ frames) ->
  snd (send_sync_loop E info_enabled frames height buf chain) = chain /\
  fst (send_sync_loop E info_enabled frames height buf chain) <> SyncOk.
Proof.
  revert height buf. induction frames as [| fr frames IH]; intros height buf Hno;
    cbn [send_sync_loop].
  - destruct (get_hash_at E chain height); cbn; split; first [reflexivity | discriminate].
  - destruct (get_hash_at E chain height) as [h | e |]; [| cbn; split; first [reflexivity | discriminate] ..].
    assert (Hrest : forall f b, Decoded (Found f b 0) ∉ frames)
      by (intros f b Hin; apply (Hno f b); apply list_elem_of_further; exact Hin).
    destruct fr as [[f b rem |] |].
    + destruct (rem =? 0)%N eqn:Hrem.
      * apply N.eqb_eq in Hrem. subst rem. exfalso. apply (Hno f b). apply list_elem_of_here.
      * apply IH. exact Hrest.
    + destruct (height =? 1)%N; [cbn; split; first [reflexivity | discriminate] |].
      apply IH. exact Hrest.
    + cbn; split; first [reflexivity | discriminate].
Qed.

Context (Hok : forall op, fails E op = false).

Lemma get_hash_at_some (st : Blockchain) (i : N) (b : Block) :
  chain_db st !! i = Some b -> get_hash_at E st i = Ok (hash E b).
Proof. intros Hb. unfold get_hash_at. rewrite (ChainExtra.get_block_reliable E st i Hok), Hb. reflexivity. Qed.

Lemma strip_loop_reliable n index wtxn pool :
  exists w pool', strip_loop E n index wtxn pool = (Ok w, pool').
Proof.
  revert index wtxn pool. induction n as [| n IH]; intros index wtxn pool; cbn [strip_loop]; [eauto |].
  rewrite Hok. destruct (wtxn !! index); [rewrite Hok |]; apply IH.
Qed.

Lemma put_loop_reliable bs index wtxn :
  exists w idx, put_loop E bs index wtxn = Ok (w, idx).
Proof.
  revert index wtxn. induction bs as [| b bs IH]; intros index wtxn; cbn [put_loop]; [eauto |].
  rewrite Hok. apply IH.
Qed.

Lemma try_update_longest_reliable st f b0 rest fb :
  chain_db st !! f = Some fb -> hash E b0 = hash E fb -> is_valid_chain E (b0 :: rest) = true ->
  exists idx st', try_update_longest E st f (b0 :: rest) = (Ok idx, st').
Proof.
  intros Hfb Hh Hv. unfold try_update_longest.
  rewrite (ChainExtra.get_block_reliable E st f Hok), Hfb.
  rewrite bool_decide_eq_true_2 by exact Hh. rewrite Hv. cbn [negb orb]. rewrite Hok.
  destruct (strip_loop_reliable (N.to_nat (height st - f)) f (chain_db st) (ballot_pool st))
    as (w & pool & ->).
  destruct (put_loop_reliable (b0 :: rest) f w) as (w' & idx & ->).
  rewrite Hok. eauto.
Qed.

Lemma send_loop_not_found (A : Blockchain) (f : N) (d : nat) (buf : list Block) (rest : list SyncResponse) :
  (1 <= f)%N ->
  (forall i, (f < i <= f + N.of_nat d)%N -> is_Some (chain_db A !! i)) ->
  send_sync_loop E info_enabled (map Decoded (repeat NotFound d ++ rest)) (f + N.of_nat d) buf A
  = send_sync_loop E info_enabled (map Decoded rest) f buf A.
Proof.
  intros Hf. induction d as [| d IH]; intros Hpres.
  - rewrite N.add_0_r. reflexivity.
  - cbn [repeat app map send_sync_loop].
    destruct (Hpres (f + N.of_nat (S d))%N ltac:(lia)) as [a Ha].
    rewrite (get_hash_at_some A _ a Ha).
    rewrite (proj2 (N.eqb_neq _ _)) by lia.
    replace (f + N.of_nat (S d) - 1)%N with (f + N.of_nat d)%N by lia.
    apply IH. intros i Hi. apply Hpres. lia.
Qed.

Lemma send_loop_found (A : Blockchain) (f : N) (a : Hash) (k : nat) (bs buf : list Block)
    (idx : N) (st' : Blockchain) :
  get_hash_at E A f = Ok a -> bs <> [] ->
  try_update_longest E A f (buf ++ bs) = (Ok idx, st') ->
  send_sync_loop E info_enabled
    (map Decoded (fst (send_found (fun _ => false) k f bs (N.of_nat (length bs))))) f buf A
  = (SyncOk, st').
Proof.
  revert k buf. induction bs as [| b bs IH]; intros k buf Hh Hne Hup; [congruence |].
  cbn [send_found].
  replace (N.of_nat (length (b :: bs)) - 1)%N with (N.of_nat (length bs)) by (cbn [length]; lia).
  destruct (send_found (fun _ => false) (S k) f bs (N.of_nat (length bs))) as [frames k'] eqn:Hsf.
  cbn [fst map send_sync_loop]. rewrite Hh.
  destruct bs as [| b' bs'].
  - cbn in Hsf. injection Hsf as <- _. cbn. rewrite Hup. reflexivity.
  - rewrite (proj2 (N.eqb_neq _ _)) by (cbn [length]; lia).
    specialize (IH (S k) (buf ++ [b]) Hh ltac:(discriminate)).
    rewrite Hsf in IH. cbn [fst] in IH. apply IH. rewrite <- app_assoc. exact Hup.
Qed.

Lemma recv_loop_descending (A B : Blockchain) (f : N) (bs : list Block) :
  blocks_from E B f = Ok bs ->
  (forall a b, chain_db A !! f = Some a -> chain_db B !! f = Some b -> hash E a = hash E b) ->
  forall d k m, (d < m)%nat ->
  (forall i, (f <= i <= f + N.of_nat d)%N -> is_Some (chain_db A !! i) /\ is_Some (chain_db B !! i)) ->
  (forall i a b, (f < i <= f + N.of_nat d)%N -> chain_db A !! i = Some a ->
                 chain_db B !! i = Some b -> hash E a <> hash E b) ->
  recv_sync_loop E (fun _ => false) k B (descending_requests E A m (f + N.of_nat d))
  = (repeat NotFound d ++ fst (send_found (fun _ => false) (k + d) f bs (N.of_nat (length bs))),
     SyncOk).
Proof.
  intros Hbs Heq d. induction d as [| d IH]; intros k m Hm Hpres Hne;
    (destruct m as [| m]; [lia |]).
  - rewrite N.add_0_r. destruct (Hpres f ltac:(lia)) as [[a Ha] [b Hb]].
    cbn [descending_requests]. rewrite (get_hash_at_some A f a Ha).
    cbn [recv_sync_loop]. rewrite (get_hash_at_some B f b Hb).
    rewrite bool_decide_eq_true_2 by (symmetry; apply Heq; assumption).
    rewrite Hbs, Nat.add_0_r. reflexivity.
  - destruct (Hpres (f + N.of_nat (S d))%N ltac:(lia)) as [[a Ha] [b Hb]].
    cbn [descending_requests]. rewrite (get_hash_at_some A _ a Ha).
    cbn [recv_sync_loop]. rewrite (get_hash_at_some B _ b Hb).
    rewrite bool_decide_eq_false_2
      by (intros Habs; apply (Hne (f + N.of_nat (S d))%N a b); [lia | exact Ha | exact Hb | symmetry; exact Habs]).
    rewrite (proj2 (N.eqb_neq _ _)) by lia.
    replace (f + N.of_nat (S d) - 1)%N with (f + N.of_nat d)%N by lia.
    rewrite (IH (S k) m ltac:(lia) (fun i Hi => Hpres i ltac:(lia))
               (fun i a' b' Hi => Hne i a' b' ltac:(lia))).
    cbn [app repeat]. replace (k + S d)%nat with (S k + d)%nat by lia. reflexivity.
Qed.

End Loops.

(** When none of its sends fails, the [for block in blocks] loop of
    [recv_sync] delivers one [Found] frame per block, in order, with
    [remaining] counting down from [len - 1] to 0. *)
Theorem send_found_counts_down (sf : nat -> bool) (k : nat) (fork_index : N) (bs : list Block) :
  (forall j, (j < length bs)%nat -> sf (k + j)%nat = false) ->
  length (fst (send_found sf k fork_index bs (N.of_nat (length bs)))) = length bs /\
  forall i b, bs !! i = Some b ->
    fst (send_found sf k fork_index bs (N.of_nat (length bs))) !! i
    = Some (Found fork_index b (N.of_nat (length bs - 1 - i))).
Proof.
  intros Hsf. destruct (send_found_all sf k fork_index bs (N.of_nat (length bs)) Hsf) as [Hlen Hi].
  split; [exact Hlen |]. intros i b Hb. rewrite Hi, Hb. cbn.
  pose proof (lookup_lt_Some _ _ _ Hb). do 2 f_equal. lia.
Qed.

(** [send_sync] only changes the chain, and only ends in success, after
    reading a [Found] frame with [remaining == 0]: on a frame stream
    without one, it returns the chain unchanged and an error or a
    panic. *)
Theorem send_sync_needs_last_frame (E : Env) (info_enabled : bool) (frames : list Frame)
    (chain : Blockchain) :
  (forall f b, Decoded (Found f b 0) ∉ frames) ->
  snd (send_sync E info_enabled frames chain) = chain /\
  fst (send_sync E info_enabled frames chain) <> SyncOk.
Proof. intros Hno. apply send_loop_no_last. exact Hno. Qed.


(** A sync session on reliable stores, where the initiator [A] holds
    [1 ..= height A], the responder [B] at least as high holds a linked
    chain on [f ..= height B], the two agree on the hash at [f] and
    differ above it up to [height A]: the initiator succeeds and adopts
    [B]'s blocks from [f] on, ending at [B]'s height, and keeps its
    blocks below [f] and its hash index. *)
Theorem sync_session_adopts_peer_chain (E : Env) (info_enabled : bool) (A B : Blockchain) (f : N) :
  (forall op, fails E op = false) ->
  (1 <= f <= height A)%N -> (height A <= height B)%N ->
  (forall i, (1 <= i <= height A)%N -> is_Some (chain_db A !! i)) ->
  (forall i, (f <= i <= height B)%N -> is_Some (chain_db B !! i)) ->
  (forall i b1 b2, (f <= i)%N -> chain_db B !! i = Some b1 -> chain_db B !! (i + 1)%N = Some b2 ->
                   hash E b1 = previous_hash b2) ->
  (forall a b, chain_db A !! f = Some a -> chain_db B !! f = Some b -> hash E a = hash E b) ->
  (forall i a b, (f < i <= height A)%N -> chain_db A !! i = Some a -> chain_db B !! i = Some b ->
                 hash E a <> hash E b) ->
  exists st', sync_session E info_enabled A B = (SyncOk, st') /\ height st' = height B /\
    (forall i, (f <= i <= height B)%N -> chain_db st' !! i = chain_db B !! i) /\
    (forall i, (i < f)%N -> chain_db st' !! i = chain_db A !! i) /\
    hash_indexes st' = hash_indexes A.
Proof.
  intros Hok Hf Hle HA HB Hlink Heq Hne.
  destruct (ChainExtra.blocks_from_spec E B f Hok HB) as (bs & Hbs & Hlen & Hbk).
  assert (Hvalid : is_valid_chain E bs = true).
  { rewrite ChainExtra.is_valid_chain_windows, ChainExtra.windows_linked_iff.
    intros i b1 b2 H1 H2.
    pose proof (lookup_lt_Some _ _ _ H1) as Hi1. pose proof (lookup_lt_Some _ _ _ H2) as Hi2.
    rewrite Hbk in H1 by exact Hi1. rewrite Hbk in H2 by exact Hi2.
    apply (Hlink (f + N.of_nat i)%N); [lia | exact H1 |].
    replace (f + N.of_nat i + 1)%N with (f + N.of_nat (S i))%N by lia. exact H2. }
  destruct bs as [| b0 rest]; [cbn [length] in Hlen; lia |].
  assert (Hb0 : chain_db B !! f = Some b0).
  { pose proof (Hbk 0%nat ltac:(cbn; lia)) as H0. cbn in H0.
    rewrite N.add_0_r in H0. congruence. }
  destruct (HA f ltac:(lia)) as [a0 Ha0].
  destruct (try_update_longest_reliable E Hok A f b0 rest a0 Ha0
              (eq_sym (Heq a0 b0 Ha0 Hb0)) Hvalid) as (idx & st' & Hup).
  destruct (ChainExtra.try_update_longest_ok_inv E A f (b0 :: rest) idx st' Hup)
    as (b0' & rest' & fb & Hcons & _ & _ & _ & Hidx & Hh & Hk & Hlow & _ & Hhi).
  exists st'. split; [| split; [| split; [| split]]].
  - set (d := N.to_nat (height A - f)).
    assert (Hd : height A = (f + N.of_nat d)%N) by (unfold d; lia).
    unfold sync_session, send_sync, recv_sync. rewrite Hd.
    rewrite (recv_loop_descending E Hok A B f (b0 :: rest) Hbs Heq d 0 (N.to_nat (f + N.of_nat d)) ltac:(lia)).
    + cbn [fst].
      rewrite (send_loop_not_found E info_enabled Hok A f d [] _ ltac:(lia)
                 (fun i Hi => HA i ltac:(lia))).
      apply (send_loop_found E info_enabled A f (hash E a0) (0 + d)%nat (b0 :: rest) [] idx st');
        [| discriminate | exact Hup].
      apply get_hash_at_some; assumption.
    + intros i Hi. split; [apply HA | apply HB]; lia.
    + intros i a b Hi. apply Hne. lia.
  - rewrite Hh, Hidx. cbn [length] in *. lia.
  - intros i Hi. set (k := N.to_nat (i - f)).
    replace i with (f + N.of_nat k)%N by (unfold k; lia).
    rewrite Hk by (unfold k; cbn [length] in *; lia).
    rewrite Hbk by (unfold k; cbn [length] in *; lia). reflexivity.
  - exact Hlow.
  - exact Hhi.
Qed.

(** A responder holding no block at the initiator's height answers the
    first request with an error and sends nothing: the initiator ends
    with the error for a missing response and keeps its chain, whatever
    the two chains hold below. *)
Theorem sync_session_fails_above_peer (E : Env) (info_enabled : bool) (A B : Blockchain) :
  (forall op, fails E op = false) ->
  (1 <= height A)%N -> is_Some (chain_db A !! height A) -> chain_db B !! height A = None ->
  sync_session E info_enabled A B = (SyncErr "Didn't recieve a response from the peer", A).
Proof.
  intros Hok Hh [a Ha] HB.
  unfold sync_session, send_sync, recv_sync.
  destruct (N.to_nat (height A)) as [| n] eqn:Hn; [lia |].
  cbn [descending_requests]. rewrite (get_hash_at_some E Hok A _ a Ha).
  cbn [recv_sync_loop]. unfold get_hash_at at 1.
  rewrite (ChainExtra.get_block_reliable E B _ Hok), HB.
  cbn [fst map send_sync_loop]. rewrite (get_hash_at_some E Hok A _ a Ha). reflexivity.
Qed.

End SyncExtra.

(* ------------------------------------------------------------------ *)
(** ** Instances of the facts above on the sample chains and graphs *)
(* ------------------------------------------------------------------ *)

Module Instances.

(** Case split on an index [i] from [lo] on until the range hypotheses
    rule the rest out, closing each case with [tac]. *)
Ltac enum_N i lo tac :=
  first [ lia
        | destruct (N.eq_dec i lo) as [-> | ?]; [tac | enum_N i (lo + 1)%N tac] ].

(** Turn a lookup [m !! k = Some v] in a map written with inserts into
    the concrete key and value. *)
Ltac concrete_lookup H :=
  repeat first [ apply lookup_insert_Some in H as [[<- <-] | [_ H]]
               | apply lookup_singleton_Some in H as [<- <-] ].

Ltac present := vm_compute; eexists; reflexivity.

Ltac no_final_frame :=
  let f := fresh "f" in let b := fresh "b" in let Hin := fresh "Hin" in
  intros f b Hin;
  repeat (apply elem_of_cons in Hin as [Hin | Hin]; [discriminate Hin |]);
  inversion Hin.

Lemma s5_chain_agrees : hash_index_agrees env0 s5_chain.
Proof.
  split.
  - intros i b Hb. cbn [chain_db s5_chain] in Hb. concrete_lookup Hb; vm_compute; reflexivity.
  - intros h i Hh. cbn [hash_indexes s5_chain] in Hh.
    concrete_lookup Hh; eexists; split; reflexivity.
Qed.

Lemma blocks_from_contents_witness :
  exists bs,
    blocks_from env0 c5_chain 2 = Ok bs /\
    length bs = N.to_nat (height c5_chain + 1 - 2) /\
    (forall k, (k < length bs)%nat -> bs !! k = chain_db c5_chain !! (2 + N.of_nat k)%N).
Proof.
  apply (ChainExtra.blocks_from_contents env0 c5_chain 2%N).
  - intros op; reflexivity.
  - intros i Hi. change (height c5_chain) with 3%N in Hi. enum_N i 2%N present.
Defined.

Lemma blocks_from_first_missing_witness :
  blocks_from env0 gap_chain 1 = Err (BlockNotFound 2).
Proof.
  apply (ChainExtra.blocks_from_first_missing env0 gap_chain 1%N 2%N).
  - intros op; reflexivity.
  - change (height gap_chain) with 3%N. lia.
  - vm_compute. reflexivity.
  - intros j Hj. enum_N j 1%N present.
Defined.

Lemma blocks_from_one_adds_head_witness :
  exists bs head,
    blocks env0 c5_chain = Ok bs /\ chain_db c5_chain !! height c5_chain = Some head /\
    blocks_from env0 c5_chain 1 = Ok (bs ++ [head]).
Proof.
  apply (ChainExtra.blocks_from_one_adds_head env0 c5_chain).
  - intros op; reflexivity.
  - change (height c5_chain) with 3%N. lia.
  - intros i Hi. change (height c5_chain) with 3%N in Hi. enum_N i 1%N present.
Defined.

Lemma get_block_from_hash_agrees_witness :
  (forall b, get_block_from_hash env0 s5_chain (hash env0 block_B1) = Ok b ->
             hash env0 b = hash env0 block_B1) /\
  ((exists i b, chain_db s5_chain !! i = Some b /\ hash env0 b = hash env0 block_B1) ->
   exists b, get_block_from_hash env0 s5_chain (hash env0 block_B1) = Ok b) /\
  ((forall i b, chain_db s5_chain !! i = Some b -> hash env0 b <> hash env0 block_B1) ->
   get_block_from_hash env0 s5_chain (hash env0 block_B1) = Err (BlockNotFound 0)).
Proof.
  apply (ChainExtra.get_block_from_hash_agrees env0 s5_chain (hash env0 block_B1)).
  - intros op; reflexivity.
  - exact s5_chain_agrees.
Defined.

Lemma iter_skips_genesis_witness :
  iter_take env0 2 (iter c5_chain) = map (fun i => chain_db c5_chain !! N.of_nat (S i)) (seq 1 2).
Proof. apply (ChainExtra.iter_skips_genesis env0 c5_chain 2). intros op; reflexivity. Defined.

Lemma append_result_witness :
  exists r st',
    append env0 s5_chain block_B2' = (r, st') /\
    ((r = Ok tt /\
      (exists head, chain_db s5_chain !! height s5_chain = Some head /\
                    previous_hash block_B2' = hash env0 head) /\
      chain_db st' = <[(height s5_chain + 1)%N := block_B2']> (chain_db s5_chain) /\
      height st' = (height s5_chain + 1)%N /\ ballot_pool st' = ballot_pool s5_chain /\
      hash_indexes st' = hash_indexes s5_chain)
     \/ ((exists e, r = Err e) /\ st' = s5_chain)).
Proof.
  exists (append env0 s5_chain block_B2').1, (append env0 s5_chain block_B2').2.
  split; [apply surjective_pairing |].
  apply (ChainExtra.append_result env0 s5_chain block_B2'). apply surjective_pairing.
Defined.

Lemma block_new_extends_valid_chain_witness :
  exists b,
    block_new env0 5 3 ([], []) block_G [ballot_Z] = Ok b /\
    is_valid env0 b block_G = true /\ is_valid_chain env0 ([block_G] ++ [b]) = true.
Proof.
  eexists. split; [reflexivity |].
  apply (ChainExtra.block_new_extends_valid_chain env0 [block_G] block_G 5 3 ([], []) [ballot_Z]);
    reflexivity.
Defined.

Lemma try_update_longest_success_witness :
  exists idx st',
    try_update_longest env0 s5_chain 1 s5_peer = (Ok idx, st') /\
    exists b0 rest fb,
      s5_peer = b0 :: rest /\ chain_db s5_chain !! 1%N = Some fb /\ hash env0 b0 = hash env0 fb /\
      is_valid_chain env0 s5_peer = true /\
      idx = (1 + N.of_nat (length s5_peer))%N /\ height st' = (idx - 1)%N /\
      (forall k, (k < length s5_peer)%nat -> chain_db st' !! (1 + N.of_nat k)%N = s5_peer !! k) /\
      (forall i, (i < 1)%N -> chain_db st' !! i = chain_db s5_chain !! i) /\
      (forall i, (1 + N.of_nat (length s5_peer) <= i)%N -> (height s5_chain <= i)%N ->
                 chain_db st' !! i = chain_db s5_chain !! i) /\
      hash_indexes st' = hash_indexes s5_chain.
Proof.
  assert (Hrun : try_update_longest env0 s5_chain 1 s5_peer
                 = (Ok 4%N, (try_update_longest env0 s5_chain 1 s5_peer).2))
    by (vm_compute; reflexivity).
  exists 4%N, (try_update_longest env0 s5_chain 1 s5_peer).2. split; [exact Hrun |].
  apply (ChainExtra.try_update_longest_success env0 s5_chain 1%N s5_peer 4%N _ Hrun).
Defined.

Lemma try_update_longest_keeps_stale_head_witness :
  exists idx st',
    try_update_longest env0 s5_chain 1 [block_G] = (Ok idx, st') /\
    (height st' < height s5_chain)%N /\
    chain_db st' !! height s5_chain = chain_db s5_chain !! height s5_chain.
Proof.
  assert (Hrun : try_update_longest env0 s5_chain 1 [block_G]
                 = (Ok 2%N, (try_update_longest env0 s5_chain 1 [block_G]).2))
    by (vm_compute; reflexivity).
  exists 2%N, (try_update_longest env0 s5_chain 1 [block_G]).2. split; [exact Hrun |].
  apply (ChainExtra.try_update_longest_keeps_stale_head env0 s5_chain 1%N [block_G] 2%N _ Hrun).
  change (height s5_chain) with 2%N. cbn [length]. lia.
Defined.

Lemma pool_ballot_seals_block_witness :
  exists block,
    pool_ballot env0 s5_chain ballot_X 5 3 ([], []) =
      (Ok tt, {| chain_db := <[(height s5_chain + 1)%N := block]> (chain_db s5_chain);
                 hash_indexes := hash_indexes s5_chain; height := (height s5_chain + 1)%N;
                 ballot_pool := take (length (ballot_pool s5_chain) - 1) (ballot_pool s5_chain) |}) /\
    get_ballots block = Some (drop (length (ballot_pool s5_chain) - 1) (ballot_pool s5_chain) ++ [ballot_X]) /\
    previous_hash block = hash env0 block_B1.
Proof.
  apply (ChainExtra.pool_ballot_seals_block env0 s5_chain ballot_X 5 3 ([], []) block_B1).
  - intros op; reflexivity.
  - vm_compute. reflexivity.
  - change (ballot_pool s5_chain) with [ballot_Z]. cbn [length]. lia.
Defined.

Lemma pool_ballot_loses_ballots_on_failed_append_witness :
  pool_ballot env_commit_fails s5_chain ballot_X 5 3 ([], []) =
    (Ok tt, {| chain_db := chain_db s5_chain; hash_indexes := hash_indexes s5_chain;
               height := height s5_chain;
               ballot_pool := take (length (ballot_pool s5_chain) - 1) (ballot_pool s5_chain) |}).
Proof.
  apply (ChainExtra.pool_ballot_loses_ballots_on_failed_append env_commit_fails s5_chain
           ballot_X 5 3 ([], []) block_B1).
  - reflexivity.
  - reflexivity.
  - reflexivity.
  - vm_compute. reflexivity.
  - change (ballot_pool s5_chain) with [ballot_Z]. cbn [length]. lia.
Defined.

Lemma hash_ignores_signature_witness :
  hash env0 block_B1' = hash env0 (mkBlock 1001 (hash env0 block_G) 99 [5] (Ballots []) [7]).
Proof. apply (ChainExtra.hash_ignores_signature env0); reflexivity. Defined.

Lemma resolve_power_counts_reach_witness :
  exists S : gset VerifyingKey,
    resolve_power (new test_map) 5 3 test_voters = Some (N.of_nat (size S)) /\ 3 ∈ S /\
    forall x, x ∈ S <-> reaches (new test_map) test_voters 3 x.
Proof.
  apply (DelegationExtra.resolve_power_counts_reach test_map test_voters 3 5).
  - unfold test_voters. set_solver.
  - apply Nat.ltb_lt. vm_compute. reflexivity.
Defined.

Lemma generate_weights_entries_witness :
  dom test_weights = test_voters /\
  forall v k, test_weights !! v = Some k ->
    resolve_power (new test_map) 6 v test_voters = Some k /\ (1 <= k)%N /\
    exists S : gset VerifyingKey, k = N.of_nat (size S) /\
      forall x, x ∈ S <-> reaches (new test_map) test_voters v x.
Proof.
  apply (DelegationExtra.generate_weights_entries test_map test_voters 6 test_weights).
  vm_compute. reflexivity.
Defined.

Lemma generate_weights_all_cast_witness :
  generate_weights (new cast_map) 3 cast_voters = Some (<[1 := 1%N]> {[2 := 1%N]}) /\
  forall v k, (<[1 := 1%N]> {[2 := 1%N]} : gmap VerifyingKey N) !! v = Some k -> k = 1%N.
Proof.
  assert (Hrun : generate_weights (new cast_map) 3 cast_voters = Some (<[1 := 1%N]> {[2 := 1%N]}))
    by (vm_compute; reflexivity).
  split; [exact Hrun |].
  apply (DelegationExtra.generate_weights_all_cast cast_map cast_voters 3); [| exact Hrun].
  intros d r Hd. unfold cast_map in Hd. concrete_lookup Hd; unfold cast_voters; set_solver.
Defined.

Lemma send_found_counts_down_witness :
  length (fst (send_found (fun _ => false) 0 1 s5_peer (N.of_nat (length s5_peer)))) = length s5_peer /\
  forall i b, s5_peer !! i = Some b ->
    fst (send_found (fun _ => false) 0 1 s5_peer (N.of_nat (length s5_peer))) !! i
    = Some (Found 1 b (N.of_nat (length s5_peer - 1 - i))).
Proof. apply (SyncExtra.send_found_counts_down (fun _ => false) 0 1 s5_peer). intros j _. reflexivity. Defined.

Lemma send_sync_needs_last_frame_witness :
  snd (send_sync env0 true [Decoded NotFound; Decoded (Found 1 block_G 2)] s5_chain) = s5_chain /\
  fst (send_sync env0 true [Decoded NotFound; Decoded (Found 1 block_G 2)] s5_chain) <> SyncOk.
Proof. apply SyncExtra.send_sync_needs_last_frame. no_final_frame. Defined.


Lemma sync_session_adopts_peer_chain_witness :
  exists st', sync_session env0 true s5_chain s5_peer_chain = (SyncOk, st') /\
    height st' = height s5_peer_chain /\
    (forall i, (1 <= i <= height s5_peer_chain)%N -> chain_db st' !! i = chain_db s5_peer_chain !! i) /\
    (forall i, (i < 1)%N -> chain_db st' !! i = chain_db s5_chain !! i) /\
    hash_indexes st' = hash_indexes s5_chain.
Proof.
  apply (SyncExtra.sync_session_adopts_peer_chain env0 true s5_chain s5_peer_chain 1%N).
  - intros op; reflexivity.
  - change (height s5_chain) with 2%N. lia.
  - change (height s5_chain) with 2%N. change (height s5_peer_chain) with 3%N. lia.
  - intros i Hi. change (height s5_chain) with 2%N in Hi. enum_N i 1%N present.
  - intros i Hi. change (height s5_peer_chain) with 3%N in Hi. enum_N i 1%N present.
  - intros i b1 b2 _ H1 H2. cbn [chain_db s5_peer_chain] in H1. concrete_lookup H1;
      vm_compute in H2; first [discriminate H2 | injection H2 as <-; vm_compute; reflexivity].
  - intros a b Ha Hb. vm_compute in Ha, Hb. injection Ha as <-. injection Hb as <-. reflexivity.
  - intros i a b Hi Ha Hb. change (height s5_chain) with 2%N in Hi.
    assert (i = 2%N) as -> by lia. vm_compute in Ha, Hb. injection Ha as <-. injection Hb as <-.
    intros Habs. vm_compute in Habs. discriminate Habs.
Defined.

Lemma sync_session_fails_above_peer_witness :
  sync_session env0 true s5_peer_chain s5_chain
  = (SyncErr "Didn't recieve a response from the peer", s5_peer_chain).
Proof.
  apply (SyncExtra.sync_session_fails_above_peer env0 true s5_peer_chain s5_chain).
  - intros op; reflexivity.
  - change (height s5_peer_chain) with 3%N. lia.
  - present.
  - vm_compute. reflexivity.
Defined.

End Instances.
